(** * lagom: the experiment orchestrator [run_experiment]

    A shallow embedding of [lagom/experiment/run_experiment.py] and the
    properties of its job enumeration, device allocation, worker dispatch
    and directory layout.

    Python integers are [Z]; lists are [list]; the file system is a pair of
    finite sets of paths; exceptions are values of [Exn]; everything the
    program prints or asks of torch, the operating system or the operator
    is recorded as an [Event] of a trace. *)

From stdpp Require Import gmap strings list pretty.

Local Open Scope Z_scope.
Set Warnings "-clear-no-such-hyp".

(** ** Python values and exceptions *)

Inductive Exn : Type :=
  | AssertionError
  | ZeroDivisionError
  | IndexError
  | ValueError
  | FileExistsError
  | FileNotFoundError
  | NotADirectoryError
  | IsADirectoryError
  | OSError
  | RuntimeError
  | BrokenProcessPool
  | Raised (msg : string).

(** The result of an expression that may raise. *)
Inductive res (A : Type) : Type :=
  | Ok (a : A)
  | Err (e : Exn).
Arguments Ok {A} a.
Arguments Err {A} e.

(** [a % b] on Python integers: floor modulus, [ZeroDivisionError] at 0. *)
Definition py_mod (a b : Z) : res Z :=
  if decide (b = 0) then Err ZeroDivisionError else Ok (a `mod` b).

(** [l[i]] on a Python list: a negative index counts from the end. *)
Definition py_index {A} (l : list A) (i : Z) : res A :=
  let n := Z.of_nat (length l) in
  let j := if decide (i < 0) then i + n else i in
  if decide (0 ≤ j < n)
  then match l !! Z.to_nat j with Some x => Ok x | None => Err IndexError end
  else Err IndexError.

(** [min(a, b)] on Python integers. *)
Definition py_min (a b : Z) : Z := if decide (b < a) then b else a.

(** ** Data model *)

(** A path is the list of its components, outermost first. *)
Abbreviation path := (list string) (only parsing).

(** A configuration: its reserved key [ID] and its other items. *)
Record Config : Type := mkConfig {
  ID : Z;
  items : list (string * string)
}.

Abbreviation Seed := Z (only parsing).

Inductive Device : Type :=
  | cpu
  | cuda (index : Z).

(** A job as [enumerate(product(configs, seeds))] yields it:
    [(job_id, (config, seed))]. *)
Abbreviation Job := (Z * (Config * Seed))%type (only parsing).

(** ** The job enumerator (line 101) *)

(** [itertools.product(xs, ys)]: the rightmost iterable advances fastest. *)
Definition product {A B} (xs : list A) (ys : list B) : list (A * B) :=
  x ← xs; y ← ys; [(x, y)].

(** [enumerate(l, start)]. *)
Fixpoint enumerate_from {A} (start : Z) (l : list A) : list (Z * A) :=
  match l with
  | [] => []
  | x :: l' => (start, x) :: enumerate_from (start + 1) l'
  end.

Definition enumerate {A} (l : list A) : list (Z * A) := enumerate_from 0 l.

(** [jobs = list(enumerate(product(configs, seeds)))]. *)
Definition make_jobs (configs : list Config) (seeds : list Seed) : list Job :=
  enumerate (product configs seeds).

(** ** What a worker does: actions of one job

    The run function is deterministic: what it returns or raises is a
    function of its four arguments. What it writes below its own log
    directory is not recorded. *)

Inductive Action : Type :=
  | SetNumThreads (n : Z)          (* torch.set_num_threads(n) *)
  | DeviceCount                    (* torch.cuda.device_count() *)
  | SetDevice (device_id : Z)      (* torch.cuda.set_device(device_id) *)
  | PrintJob (config_id : Z) (seed : Seed) (d : Device) (job_id : Z)
  | PrintItems (kv : list (string * string))
  | CallRun (c : Config) (seed : Seed) (d : Device) (logdir : path)
  | EmptyCache.                    (* torch.cuda.empty_cache() *)

(** A worker computation: the actions performed so far and how it ended. *)
Definition Wk (A : Type) : Type := list Action * res A.

Definition wret {A} (a : A) : Wk A := ([], Ok a).
Definition wraise {A} (e : Exn) : Wk A := ([], Err e).
Definition wdo (a : Action) : Wk () := ([a], Ok ()).
Definition wlift {A} (r : res A) : Wk A := ([], r).
Definition wbind {A B} (m : Wk A) (f : A → Wk B) : Wk B :=
  match m with
  | (t, Ok a) => let '(t', r) := f a in (t ++ t', r)
  | (t, Err e) => (t, Err e)
  end.

Declare Scope wk_scope.
Delimit Scope wk_scope with wk.
Notation "'let*' x := m 'in' k" := (wbind m (λ x, k))
  (at level 10, x name, m at level 100, k at level 200) : wk_scope.

(** [assert b], with assertions enabled (the interpreter is not run with
    -O). *)
Definition py_assert (b : bool) : res () :=
  if b then Ok () else Err AssertionError.

(** [torch.cuda.set_device(device_id)] followed by
    [torch.device(f'cuda:{device_id}')] with [num_gpu] devices present: an
    ordinal outside [0, num_gpu) is refused by the runtime. *)
Definition cuda_device (num_gpu device_id : Z) : res Device :=
  if decide (0 ≤ device_id < num_gpu) then Ok (cuda device_id)
  else Err RuntimeError.

Section Worker.
(** The closure [_run] captures these names of [run_experiment]. *)
Context {Result : Type}.
Variable run : Config → Seed → Device → path → res Result.
Variable log_path : path.
Variable use_gpu : bool.
Variable gpu_ids : option (list Z).
(** What [torch.cuda.device_count()] answers on this machine. *)
Variable num_gpu : Z.

(** Lines 113 and 115-116: the device id of a job in accelerator mode. *)
Definition device_id_for (job_id : Z) : res Z :=
  match gpu_ids with
  | None => py_mod job_id num_gpu
  | Some ids =>
      match py_assert (forallb (λ i, (i >=? 0) && (i <? num_gpu)) ids) with
      | Err e => Err e
      | Ok _ =>
          match py_mod job_id (Z.of_nat (length ids)) with
          | Err e => Err e
          | Ok k => py_index ids k
          end
      end
  end.

(** Lines 110-120: the device allocator, with the torch calls it makes. *)
Definition device_for (job_id : Z) : Wk Device :=
  if use_gpu then
    (let* _ := wdo DeviceCount in
     let* device_id := wlift (device_id_for job_id) in
     let* _ := wdo (SetDevice device_id) in
     wlift (cuda_device num_gpu device_id))%wk
  else wret cpu.

(** [log_path / f'{ID}' / f'{seed}'] *)
Definition leaf_dir (ID : Z) (seed : Seed) : path :=
  log_path ++ [pretty ID; pretty seed].

(** Lines 103-132. *)
Definition _run (job : Job) : Wk Result :=
  let '(job_id, (config, seed)) := job in
  (let* _ := wdo (SetNumThreads 1) in
   let* device := device_for job_id in
   let* _ := wdo (PrintJob (ID config) seed device job_id) in
   let* _ := wdo (PrintItems (items config)) in
   let logdir := leaf_dir (ID config) seed in
   let* _ := wdo (CallRun config seed device logdir) in
   let* result := wlift (run config seed device logdir) in
   let* _ := (if use_gpu then wdo EmptyCache else wret ()) in
   wret result)%wk.

End Worker.

(** ** The world of the orchestrating process *)

Inductive Event : Type :=
  | Mkdir (p : path)                          (* p.mkdir(parents=True) *)
  | AskYesNo (p : path)                       (* ask_yes_or_no(msg) *)
  | Rmtree (p : path)                         (* rmtree(p) *)
  | Rename (p q : path)                       (* p.rename(q) *)
  | PrintRenamed (q : path)
  | Input                                     (* input('Please, press Enter ...') *)
  | CopyFile (name : string) (dst : path)     (* copyfile(s, dst) *)
  | YamlDump (c : Config) (f : path)          (* yaml_dump(obj=c, f=..., ext='.yml') *)
  | PickleDump (cs : list Config) (f : path)  (* pickle_dump(cs, ..., ext='.pkl') *)
  | PoolStart (max_workers : Z)               (* ProcessPoolExecutor(max_workers=...) *)
  | InJob (job_id : Z) (a : Action)           (* an action of _run(job) *)
  | PrintFinished (p : path).

(** Directories and regular files that exist, and what has happened. *)
Record World : Type := mkWorld {
  dirs : gset path;
  files : gset path;
  trace : list Event
}.

(** How a call of the orchestrator ends: it returns, raises, or waits for
    ever on a future that never completes. *)
Inductive Outcome (A : Type) : Type :=
  | Ret (a : A)
  | Raise (e : Exn)
  | Blocked.
Arguments Ret {A} a.
Arguments Raise {A} e.
Arguments Blocked {A}.

Definition M (A : Type) : Type := World → World * Outcome A.

Definition ret {A} (a : A) : M A := λ w, (w, Ret a).
Definition raise {A} (e : Exn) : M A := λ w, (w, Raise e).
Definition bind {A B} (m : M A) (f : A → M B) : M B := λ w,
  match m w with
  | (w', Ret a) => f a w'
  | (w', Raise e) => (w', Raise e)
  | (w', Blocked) => (w', Blocked)
  end.

Declare Scope orch_scope.
Delimit Scope orch_scope with orch.
Notation "'let*' x := m 'in' k" := (bind m (λ x, k))
  (at level 10, x name, m at level 100, k at level 200) : orch_scope.

(** Append events to the trace. *)
Definition emit (evs : list Event) : M () := λ w,
  (mkWorld (dirs w) (files w) (trace w ++ evs), Ret ()).

Definition get_world : M World := λ w, (w, Ret w).

Definition set_fs (d f : gset path) : M () := λ w,
  (mkWorld d f (trace w), Ret ()).

Definition lift_res {A} (r : res A) : M A :=
  match r with Ok a => ret a | Err e => raise e end.

(** *** pathlib and shutil on this file system *)

(** [p.exists()]; the empty path is the current directory. *)
Definition path_exists (w : World) (p : path) : bool :=
  bool_decide (p = [] ∨ p ∈ dirs w ∨ p ∈ files w).

Definition is_dir (w : World) (p : path) : bool :=
  bool_decide (p = [] ∨ p ∈ dirs w).

(** The non-empty prefixes of [p], shortest first: [p] and its parents. *)
Fixpoint ancestors (p : path) : list path :=
  match p with
  | [] => []
  | x :: p' => [x] :: ((x ::.) <$> ancestors p')
  end.

(** [p.parent]. *)
Definition parent (p : path) : path := take (length p - 1)%nat p.

(** [p.mkdir(parents=True)]: missing parents are made; the path itself
    must be new ([exist_ok] is left at its default, False). *)
Definition mkdir_parents (p : path) : M () :=
  (let* w := get_world in
   if path_exists w p then raise FileExistsError
   else if bool_decide (Exists (λ q, q ∈ files w) (ancestors p))
   then raise NotADirectoryError
   else
     let* _ := set_fs (dirs w ∪ list_to_set (ancestors p)) (files w) in
     emit [Mkdir p])%orch.

(** [rmtree(p)] for an existing [p]: the whole subtree goes. *)
Definition rmtree (p : path) : M () :=
  (let* w := get_world in
   if is_dir w p then
     let* _ := set_fs (filter (λ q, ¬ p `prefix_of` q) (dirs w))
                      (filter (λ q, ¬ p `prefix_of` q) (files w)) in
     emit [Rmtree p]
   else raise NotADirectoryError)%orch.

(** [p.with_name(name)]. *)
Definition with_name (p : path) (name : string) : res path :=
  match p with
  | [] => Err ValueError
  | _ => Ok (parent p ++ [name])
  end.

(** [p.name]. *)
Definition name_of (p : path) : string := default "" (last p).

(** Move the subtree at [p] to [q]. *)
Definition moved (p q : path) (s : gset path) : gset path :=
  set_map (λ x, q ++ drop (length p) x) (filter (λ x, p `prefix_of` x) s)
  ∪ filter (λ x, ¬ p `prefix_of` x ∧ ¬ q `prefix_of` x) s.

(** [p.rename(q)] for an existing [p], as POSIX rename(2) has it: a
    directory replaces only an empty directory, a file replaces only a
    file. *)
Definition rename (p q : path) : M () :=
  (let* w := get_world in
   if is_dir w p then
     if bool_decide (q ∈ files w) then raise NotADirectoryError
     else if bool_decide (set_Exists (λ x, q `prefix_of` x ∧ x ≠ q)
                                     (dirs w ∪ files w))
     then raise OSError
     else
       let* _ := set_fs (moved p q (dirs w)) (moved p q (files w)) in
       emit [Rename p q]
   else
     if is_dir w q then raise IsADirectoryError
     else
       let* _ := set_fs (dirs w) (moved p q (files w)) in
       emit [Rename p q])%orch.

(** [f + ext]: the extension is appended to the last component. *)
Definition add_ext (f : path) (ext : string) : path :=
  parent f ++ [name_of f +:+ ext].

(** Why [open(f, 'w')] fails in the world [w], if it does: [f] must not be
    a directory and its parent must be one. *)
Definition open_error (w : World) (f : path) : option Exn :=
  if is_dir w f then Some IsADirectoryError
  else if bool_decide (parent f ∈ files w) then Some NotADirectoryError
  else if negb (is_dir w (parent f)) then Some FileNotFoundError
  else None.

(** Writing the file [f], by a writer that fails as [error] says. *)
Definition write_file (error : World → path → option Exn) (f : path) : M () :=
  (let* w := get_world in
   match error w f with
   | Some e => raise e
   | None => set_fs (dirs w) (files w ∪ {[ f ]})
   end)%orch.

(** [copyfile(s, dst)] of shutil opens [dst] for writing. *)
Definition copyfile (name : string) (dst : path) : M () :=
  (let* _ := write_file open_error dst in
   emit [CopyFile name dst])%orch.

(** Modelled from the spec: [yaml_dump] of [lagom.utils] is not under
    src/; it serializes the configuration to the file [f + ext]
    ([root/<config_id>/config.yml]), and an I/O error propagates. When it
    fails is not fixed here: [error] is a parameter. *)
Definition yaml_dump (error : World → path → option Exn)
    (obj : Config) (f : path) (ext : string) : M () :=
  (let* _ := write_file error (add_ext f ext) in
   emit [YamlDump obj (add_ext f ext)])%orch.

(** Modelled from the spec: [pickle_dump] of [lagom.utils] is not under
    src/; it serializes the ordered list of configurations to the file
    [f + ext] ([root/configs.pkl]), and an I/O error propagates. When it
    fails is not fixed here: [error] is a parameter. *)
Definition pickle_dump (error : World → path → option Exn)
    (obj : list Config) (f : path) (ext : string) : M () :=
  (let* _ := write_file error (add_ext f ext) in
   emit [PickleDump obj (add_ext f ext)])%orch.

(** [for x in l: body(x)] *)
Fixpoint for_each {A} (l : list A) (body : A → M ()) : M () :=
  match l with
  | [] => ret ()
  | x :: l' => (let* _ := body x in for_each l' body)%orch
  end.

(** ** The process pool of [concurrent.futures]

    [ProcessPoolExecutor.map] cuts the jobs into chunks, one work item and
    one future per chunk; each worker process takes a work item and runs
    its jobs in order ([_process_chunk]), and the first exception ends the
    chunk; the caller awaits the futures in submission order. Which worker
    moves next is the operating system's choice: it is an input here, the
    schedule. A step of the pool runs one whole job, so the events of a job
    stay together in the trace; the events of different jobs interleave as
    the schedule says. Unless the pool breaks, every submitted chunk is
    run: the cancelling of pending work when an exception is met is not
    modelled, so the jobs that run here are a superset of those that run
    under cancellation. When the pool breaks its workers are terminated,
    and nothing more is run.

    The workers are other processes. A work item goes to its worker
    pickled: the jobs are plain data (an integer, a configuration of
    strings, a seed) and the function is sent by [CloudpickleWrapper], so a
    worker runs what the caller would run, on equal values. The outcome of
    a work item, the list of its results or its exception, comes back
    pickled by the worker ([_sendback_result]) and is unpickled by the
    caller's queue management thread; what becomes of it on this way
    depends on the classes of the results and exceptions of the run
    function, and is a parameter. *)

(** What becomes of the outcome of a work item on its way to the caller. *)
Inductive Fate : Type :=
  | Arrives             (* pickled by the worker, unpickled by the caller *)
  | Refused (e : Exn)   (* pickling fails in the worker: [e] is sent instead *)
  | Breaks.             (* unpickling fails in the caller: the pool is broken *)

(** [_get_chunks(jobs, chunksize=n)]: slices of [n] items until the
    iterable is exhausted. *)
Fixpoint get_chunks_go {A} (fuel n : nat) (it : list A) : list (list A) :=
  match fuel with
  | O => []
  | S fuel' =>
      match take n it with
      | [] => []
      | chunk => chunk :: get_chunks_go fuel' n (drop n it)
      end
  end.

Definition get_chunks {A} (n : nat) (it : list A) : list (list A) :=
  get_chunks_go (length it) n it.

Section Dispatch.
Context {Result : Type}.
(** The function mapped over the jobs: [_run], or [CloudpickleWrapper(_run)],
    which calls [_run] in the worker process. *)
Variable fn : Job → Wk Result.
(** How the outcomes of the work items survive pickling. *)
Variable fate : res (list Result) → Fate.

Definition tag (job : Job) (t : list Action) : list Event :=
  InJob job.1 <$> t.

(** [[fn(job) for job in jobs]]: the list comprehension of serial mode,
    and [_process_chunk] inside a pool worker. The first exception ends
    the loop. *)
Fixpoint map_jobs (jobs : list Job) : list Event * res (list Result) :=
  match jobs with
  | [] => ([], Ok [])
  | job :: rest =>
      match fn job with
      | (t, Err e) => (tag job t, Err e)
      | (t, Ok x) =>
          let '(t', r) := map_jobs rest in
          (tag job t ++ t', match r with Ok xs => Ok (x :: xs) | Err e => Err e end)
      end
  end.

(** A worker process busy with one work item (one chunk). *)
Record Slot : Type := mkSlot {
  future : nat;               (* which future it will complete *)
  todo : list Job;            (* jobs of the chunk still to run *)
  acc : list Result           (* results of the chunk so far *)
}.

Record Pool : Type := mkPool {
  pending : list (nat * list Job);        (* submitted, not yet taken *)
  running : list Slot;                    (* at most max_workers *)
  futures : gmap nat (res (list Result)); (* completed futures *)
  happened : list Event                   (* what the workers did *)
}.

(** Idle workers take the oldest pending work items. *)
Definition pool_fill (max_workers : nat) (p : Pool) : Pool :=
  let k := (max_workers - length (running p))%nat in
  mkPool (drop k (pending p))
         (running p ++ ((λ item, mkSlot item.1 item.2 []) <$> take k (pending p)))
         (futures p) (happened p).

(** What the caller receives for the outcome [o] of a work item, if it
    can read it. The exceptions of Python and torch themselves pickle;
    for the results and the exceptions of the run function, [fate]
    says. *)
Definition deliver (o : res (list Result)) : option (res (list Result)) :=
  match o with
  | Ok _ | Err (Raised _) =>
      match fate o with
      | Arrives => Some o
      | Refused e => Some (Err e)
      | Breaks => None
      end
  | Err e => Some (Err e)
  end.

(** The pool breaks ([_queue_management_worker], [is_broken]): every work
    item that is not completed, taken by a worker or not, has its future
    set to BrokenProcessPool, and the workers are terminated. *)
Definition break_pool (p : Pool) (t : list Event) : Pool :=
  mkPool [] []
         (foldr (λ i fs, <[i := Err BrokenProcessPool]> fs) (futures p)
                ((future <$> running p) ++ (pending p).*1))
         (happened p ++ t).

(** The worker in slot [i] has the outcome [o] for its work item: the
    future is completed with what the caller receives, or the pool
    breaks. *)
Definition complete (i : nat) (s : Slot) (o : res (list Result))
    (t : list Event) (p : Pool) : Pool :=
  match deliver o with
  | Some r =>
      mkPool (pending p) (delete i (running p))
             (<[future s := r]> (futures p)) (happened p ++ t)
  | None => break_pool p t
  end.

(** The worker in slot [i] runs its next job, or completes its future. *)
Definition slot_step (i : nat) (s : Slot) (p : Pool) : Pool :=
  match todo s with
  | [] => complete i s (Ok (acc s)) [] p
  | job :: rest =>
      match fn job with
      | (t, Ok x) =>
          mkPool (pending p)
                 (<[i := mkSlot (future s) rest (acc s ++ [x])]> (running p))
                 (futures p) (happened p ++ tag job t)
      | (t, Err e) => complete i s (Err e) (tag job t) p
      end
  end.

(** One step of the pool; [choice] says which busy worker moves next. *)
Definition pool_step (max_workers : nat) (choice : nat) (p : Pool) : Pool :=
  let p' := pool_fill max_workers p in
  match running p' !! (choice `mod` length (running p'))%nat with
  | Some s => slot_step (choice `mod` length (running p'))%nat s p'
  | None => p'
  end.

(** The pool under a schedule, the sequence of choices of the operating
    system; a schedule that ends is continued by choice 0. *)
Fixpoint pool_run (max_workers fuel : nat) (sched : list nat) (p : Pool) : Pool :=
  match fuel with
  | O => p
  | S fuel' =>
      pool_run max_workers fuel' (tail sched)
               (pool_step max_workers (default 0%nat (head sched)) p)
  end.

(** [list(results)]: the futures are awaited in submission order and
    their lists chained; the first exception met is raised again. *)
Fixpoint drain (fs : gmap nat (res (list Result))) (ids : list nat)
    : Outcome (list Result) :=
  match ids with
  | [] => Ret []
  | i :: ids' =>
      match fs !! i with
      | None => Blocked
      | Some (Err e) => Raise e
      | Some (Ok rs) =>
          match drain fs ids' with
          | Ret rs' => Ret (rs ++ rs')
          | o => o
          end
      end
  end.

(** Every job takes one step and every chunk one more to complete. *)
Definition pool_fuel (chunks : list (list Job)) : nat :=
  (length (mjoin chunks) + length chunks)%nat.

(** [executor.map(fn, jobs, chunksize=chunksize)] drained into a list,
    on a pool of [max_workers] processes. *)
Definition pool_map (max_workers : nat) (sched : list nat) (chunksize : Z)
    (jobs : list Job) : list Event * Outcome (list Result) :=
  if decide (chunksize < 1) then ([], Raise ValueError)
  else
    let chunks := get_chunks (Z.to_nat chunksize) jobs in
    let p0 := mkPool (imap (λ i c, (i, c)) chunks) [] ∅ [] in
    let p := pool_run max_workers (pool_fuel chunks) sched p0 in
    (happened p, drain (futures p) (seq 0 (length chunks))).

(** Lines 134-138 of [run_experiment]. The pool's constructor refuses a
    number of workers that is not positive, and [map] a chunksize below
    1, both with ValueError. *)
Definition dispatch (max_workers : option Z) (chunksize : Z)
    (sched : list nat) (jobs : list Job) : M (list Result) :=
  match max_workers with
  | None =>
      let '(t, r) := map_jobs jobs in
      (let* _ := emit t in lift_res r)%orch
  | Some max_workers =>
      let n := py_min max_workers (Z.of_nat (length jobs)) in
      if decide (n ≤ 0) then raise ValueError
      else
        (let* _ := emit [PoolStart n] in
         let '(t, o) := pool_map (Z.to_nat n) sched chunksize jobs in
         let* _ := emit t in
         λ w, (w, o))%orch
  end.

End Dispatch.

Arguments Slot : clear implicits.
Arguments Pool : clear implicits.

(** ** The orchestrator *)

Section Orchestrator.
Context {Result : Type}.
(** The arguments of [run_experiment]; [configs] is what
    [config.make_configs()] returns and [log_path] is [Path(log_dir)]. *)
Variable run : Config → Seed → Device → path → res Result.
Variable configs : list Config.
Variable seeds : list Seed.
Variable log_path : path.
Variable max_workers : option Z.
Variable chunksize : Z.
Variable use_gpu : bool.
Variable gpu_ids : option (list Z).
(** The environment: the number of accelerators, the operator's answer
    to the yes/no question, the names of the [*.py] files next to the
    source of [run], and the scheduling of the pool's workers. *)
Variable num_gpu : Z.
Variable answer : bool.
Variable sources : list string.
Variable sched : list nat.
(** How the serializers of [lagom.utils] fail, if they do: the error
    raised when asked to write the file [f] in the world [w]. *)
Variable dump_error : World → path → option Exn.
(** How the results and exceptions of [run] survive pickling, on their
    way from a worker process to the caller. *)
Variable fate : res (list Result) → Fate.

(** Lines 69-83: the logging directory. *)
Definition create_log_dir : M () :=
  (let* w := get_world in
   if negb (path_exists w log_path) then mkdir_parents log_path
   else
     let* _ := emit [AskYesNo log_path] in
     if answer then
       let* _ := rmtree log_path in
       mkdir_parents log_path
     else
       let* old_log_path :=
         lift_res (with_name log_path ("old_" +:+ name_of log_path)) in
       let* _ := rename log_path old_log_path in
       let* _ := mkdir_parents log_path in
       emit [PrintRenamed old_log_path; Input])%orch.

(** Lines 86-88: the snapshot of the source files. *)
Definition save_sources : M () :=
  (let source_path := log_path ++ ["source_files"] in
   let* _ := mkdir_parents source_path in
   for_each sources (λ s, copyfile s (source_path ++ [s])))%orch.

(** Lines 91-98: a directory per ID, below it one per seed. *)
Definition create_subfolders : M () :=
  (let* _ := for_each configs (λ config,
     let ID := ID config in
     let* _ := for_each seeds (λ seed,
       let p := log_path ++ [pretty ID; pretty seed] in
       mkdir_parents p) in
     yaml_dump dump_error config (log_path ++ [pretty ID; "config"]) ".yml") in
   pickle_dump dump_error configs (log_path ++ ["configs"]) ".pkl")%orch.

(** Everything before the jobs are made (lines 66-98). *)
Definition prepare : M () :=
  (let* _ := create_log_dir in
   let* _ := save_sources in
   create_subfolders)%orch.

(** The decorator [timeit] of [lagom.utils] reports the elapsed time and
    hands the result through; the report is not part of the trace. *)
Definition run_experiment : M (list Result) :=
  (let* _ := prepare in
   let jobs := make_jobs configs seeds in
   let* results :=
     dispatch (_run run log_path use_gpu gpu_ids num_gpu) fate
              max_workers chunksize sched jobs in
   let* _ := emit [PrintFinished log_path] in
   ret results)%orch.

End Orchestrator.

(** * Specification vocabulary *)

(** How the caller sees the result of an expression that may raise. *)
Definition outcome_of {A} (r : res A) : Outcome A :=
  match r with Ok a => Ret a | Err e => Raise e end.

(** The events of one job, as a worker running [fn] produces them. *)
Definition job_events {Result} (fn : Job → Wk Result) (job : Job) : list Event :=
  tag job (fn job).1.

(** The world [w] after the events [t]. *)
Definition after (w : World) (t : list Event) : World :=
  mkWorld (dirs w) (files w) (trace w ++ t).

(** The actions of the device allocator. *)
Definition device_action (a : Action) : Prop :=
  a = DeviceCount ∨ ∃ i, a = SetDevice i.

(** What [_run] still does once the run function has answered [r]. *)
Definition tail_of_job (use_gpu : bool) {A} (r : res A) : list Action :=
  match r with
  | Ok _ => if use_gpu then [EmptyCache] else []
  | Err _ => []
  end.

(** An event of the orchestrating process itself, not of a job. *)
Definition quiet (ev : Event) : Prop :=
  match ev with InJob _ _ => False | _ => True end.

(** [w'] continues [w]: its trace extends that of [w] by quiet events. *)
Definition extends (w w' : World) : Prop :=
  ∃ t, trace w' = trace w ++ t ∧ Forall quiet t.

(** [w'] continues [w] and has kept every directory of [w]. *)
Definition grows (w w' : World) : Prop :=
  dirs w ⊆ dirs w' ∧ extends w w'.

(** The leaf [p] has been made and is still there. *)
Definition has_leaf (p : path) (w : World) : Prop :=
  p ∈ dirs w ∧ Mkdir p ∈ trace w.

(** A computation that moves the world along [R] and never blocks. *)
Definition respects {A} (R : relation World) (m : M A) : Prop :=
  ∀ w, R w (m w).1 ∧ (m w).2 ≠ Blocked.

(** An event of the dispatch: the pool is started, or a job acts. *)
Definition dispatch_event {Result} (fn : Job → Wk Result) (jobs : list Job)
    (ev : Event) : Prop :=
  (∃ n, ev = PoolStart n) ∨ ∃ job, job ∈ jobs ∧ ev ∈ job_events fn job.


(** ** The invariant of the process pool *)

Section PoolInvariant.
Context {Result : Type}.
Variable fn : Job → Wk Result.
Variable fate : res (list Result) → Fate.
(** The work items submitted to the pool. *)
Variable chunks : list (list Job).

(** A busy worker is somewhere inside its chunk, and the results it
    holds are those of the jobs it has run. *)
Definition slot_ok (s : Slot Result) : Prop :=
  ∃ pre, chunks !! future s = Some (pre ++ todo s)
       ∧ (map_jobs fn pre).2 = Ok (acc s).

Definition from_chunks (ev : Event) : Prop :=
  ∃ job, job ∈ mjoin chunks ∧ ev ∈ job_events fn job.

Record pool_inv (p : Pool Result) : Prop := {
  inv_pending : Forall (λ item, chunks !! item.1 = Some item.2) (pending p);
  inv_running : Forall slot_ok (running p);
  inv_futures : ∀ i r, futures p !! i = Some r →
                  ∃ c, chunks !! i = Some c
                     ∧ (deliver fate (map_jobs fn c).2 = Some r
                        ∨ (r = Err BrokenProcessPool
                           ∧ ∃ c', c' ∈ chunks
                                 ∧ deliver fate (map_jobs fn c').2 = None));
  inv_cover : ∀ i, (i < length chunks)%nat →
                i ∈ (pending p).*1 ∨ i ∈ future <$> running p
                ∨ is_Some (futures p !! i);
  inv_happened : Forall from_chunks (happened p)
}.

(** Steps still to take: one per job and one per chunk not completed. *)
Definition pool_work (p : Pool Result) : nat :=
  (sum_list_with (λ item, S (length item.2)) (pending p)
   + sum_list_with (λ s, S (length (todo s))) (running p))%nat.
End PoolInvariant.

(** ** Inputs for the examples *)

(** The configurations of the spec's example scenario. *)
Definition cfg0 : Config := mkConfig 0 [("lr", "0.1")].
Definition cfg1 : Config := mkConfig 1 [("lr", "0.2")].

(** A run function that raises on seed 2. *)
Definition sample_run (c : Config) (seed : Seed) (d : Device) (logdir : path)
    : res Z :=
  if decide (seed = 2) then Err (Raised "seed 2") else Ok (10 * ID c + seed).

(** The process boundary when everything pickles. *)
Definition plain {Result} (o : res (list Result)) : Fate := Arrives.

(** The process boundary when the exceptions of the run function do not
    unpickle, as those of a class whose constructor takes two arguments. *)
Definition fragile {Result} (o : res (list Result)) : Fate :=
  match o with
  | Err (Raised _) => Breaks
  | _ => Arrives
  end.

(** The process boundary when the results of the run function do not
    pickle. *)
Definition opaque_results {Result} (o : res (list Result)) : Fate :=
  match o with
  | Ok _ => Refused (Raised "PicklingError")
  | _ => Arrives
  end.

(** A file system in which nothing exists yet, and nothing has happened. *)
Definition fresh : World := mkWorld ∅ ∅ [].

(** * Vocabulary of the further properties *)

#[global] Instance Exn_eq_dec : EqDecision Exn.
Proof. solve_decision. Defined.

#[global] Instance res_eq_dec {A} `{EqDecision A} : EqDecision (res A).
Proof. solve_decision. Defined.

(** The number of the jobs [0 .. n-1] that are given the device [d]. *)
Definition load (gpu_ids : option (list Z)) (num_gpu : Z) (n : nat) (d : Z) : nat :=
  length (filter (λ job_id, device_id_for gpu_ids num_gpu job_id = Ok d)
                 (Z.of_nat <$> seq 0 n)).

(** The jobs that the pool has still to run: those left in the chunks of
    the busy workers, and the chunks not yet taken. *)
Definition pool_todo {Result} (p : Pool Result) : list Job :=
  mjoin (todo <$> running p) ++ mjoin ((λ item, item.2) <$> pending p).

(** The pool as [pool_map] starts it. *)
Definition pool_start {Result} (chunks : list (list Job)) : Pool Result :=
  mkPool (imap (λ i c, (i, c)) chunks) [] ∅ [].

(** A pool that has broken: no work is pending or running, and a future
    holds BrokenProcessPool. *)
Definition broken {Result} (p : Pool Result) : Prop :=
  pending p = [] ∧ running p = []
  ∧ ∃ i, futures p !! i = Some (Err BrokenProcessPool).

(** The events of a list of jobs run one after the other by [fn]. *)
Definition job_trace {Result} (fn : Job → Wk Result) (jobs : list Job)
    : list Event :=
  mjoin (job_events fn <$> jobs).

(** Every job of the list returns. *)
Definition all_return {Result} (fn : Job → Wk Result) (jobs : list Job) : Prop :=
  ∀ job, job ∈ jobs → ∃ x, (fn job).2 = Ok x.

(** [w'] continues [w] by events that all satisfy [P]. *)
Definition extends_by (P : Event → Prop) (w w' : World) : Prop :=
  ∃ t, trace w' = trace w ++ t ∧ Forall P t.

(** The events of the preparation: everything but the pool, the jobs and
    the closing message. *)
Definition setup_event (ev : Event) : Prop :=
  match ev with
  | InJob _ _ | PoolStart _ | PrintFinished _ => False
  | _ => True
  end.

(** The events of an unattended preparation: directories made and files
    written, no question asked, nothing removed or renamed. *)
Definition silent_event (ev : Event) : Prop :=
  match ev with
  | Mkdir _ | CopyFile _ _ | YamlDump _ _ | PickleDump _ _ => True
  | _ => False
  end.

(** The path [x] is kept, as a directory or as a file. *)
Definition keeps (x : path) (w w' : World) : Prop :=
  (x ∈ dirs w → x ∈ dirs w') ∧ (x ∈ files w → x ∈ files w').

(** Where the old logging directory is moved to: [old_<name>] beside it. *)
Definition backup_path (log_path : path) : path :=
  parent log_path ++ ["old_" +:+ name_of log_path].

(** The events that involve the operator or destroy something: the
    question, the removal, the renaming and the pause that follows it. *)
Definition operator_event (ev : Event) : Prop :=
  match ev with
  | AskYesNo _ | Rmtree _ | Rename _ _ | PrintRenamed _ | Input => True
  | _ => False
  end.

(** A file system in which whatever exists lies in directories that exist:
    every proper parent of a directory or file is a directory. *)
Definition closed (w : World) : Prop :=
  ∀ x q, x ∈ dirs w ∪ files w → q ∈ ancestors x → q ≠ x → q ∈ dirs w.

(** ** The policy of the vanilla policy gradient example

    [examples/policy_gradient/vpg/model.py]. The networks, the
    distribution over actions and the operations of torch on them belong
    to lagom and torch: they are parameters here, and a tensor is a value
    of an arbitrary type. The draw of [action_dist.sample()] is a
    parameter as well. *)

Section VPG.
Context {Obs Tensor Dist : Type}.
(** [self.feature_network], [self.action_head], [self.V_head]. *)
Variable feature_network : Tensor → Tensor.
Variable action_head : Tensor → Dist.
Variable V_head : Tensor → Tensor.
(** [action_dist.sample().detach()], [action_dist.log_prob(action)],
    [action_dist.entropy()], [action_dist.perplexity()]. *)
Variable sample : Dist → Tensor.
Variable log_prob : Dist → Tensor → Tensor.
Variable entropy : Dist → Tensor.
Variable perplexity : Dist → Tensor.

(** [Policy.__call__(x, out_keys, info)], lines 71-90; [info] and the
    keyword arguments are not used. *)
Definition __call__ (x : Tensor) (out_keys : list string) : gmap string Tensor :=
  let out : gmap string Tensor := ∅ in
  let features := feature_network x in
  let action_dist := action_head features in
  let action := sample action_dist in
  let out := <["action" := action]> out in
  let V := V_head features in
  let out := <["V" := V]> out in
  let out := if bool_decide ("action_logprob" ∈ out_keys)
             then <["action_logprob" := log_prob action_dist action]> out
             else out in
  let out := if bool_decide ("entropy" ∈ out_keys)
             then <["entropy" := entropy action_dist]> out
             else out in
  let out := if bool_decide ("perplexity" ∈ out_keys)
             then <["perplexity" := perplexity action_dist]> out
             else out in
  out.

(** [torch.from_numpy(np.asarray(obs)).float().to(self.device)],
    [torch.any(torch.isnan(t))], [self.env_spec.control_type ==
    'Continuous'] and [constraint_action(self.env_spec, t)]. *)
Variable to_tensor : Obs → Tensor.
Variable any_isnan : Tensor → bool.
Variable continuous : bool.
Variable constraint_action : Tensor → Tensor.

(** [out[key]]: a missing key raises KeyError. *)
Definition py_getitem (out : gmap string Tensor) (key : string) : res Tensor :=
  match out !! key with
  | Some v => Ok v
  | None => Err (Raised "KeyError")
  end.

(** [Agent.choose_action(obs, info)], lines 112-124. The loop that prints
    'NaN !' never ends: the call does not return ([Blocked]). *)
Definition choose_action (obs : Obs) : Outcome (gmap string Tensor) :=
  let obs := to_tensor obs in
  let out := __call__ obs ["action"; "action_logprob"; "V"; "entropy"] in
  match py_getitem out "action" with
  | Err e => Raise e
  | Ok a =>
      if any_isnan a then Blocked
      else if continuous then
        match py_getitem out "action" with
        | Err e => Raise e
        | Ok a => Ret (<["action" := constraint_action a]> out)
        end
      else Ret out
  end.

End VPG.

(** ** Sample file systems *)

(** An earlier experiment under [logs], its backup under [old_logs], and a
    directory [data] next to them. *)
Definition earlier_run : World :=
  mkWorld {[ ["logs"]; ["logs"; "0"]; ["old_logs"]; ["old_logs"; "0"]; ["data"] ]}
          {[ ["logs"; "configs.pkl"] ]} [].

(** An earlier experiment under [logs] that has not been backed up. *)
Definition first_run : World :=
  mkWorld {[ ["logs"]; ["logs"; "0"]; ["data"] ]} {[ ["logs"; "configs.pkl"] ]} [].

(** A regular file where the logging directory should be. *)
Definition file_in_the_way : World := mkWorld ∅ {[ ["logs"] ]} [].

(** * Properties *)

(** ** The job enumerator *)

Lemma product_nil_r {A B} (xs : list A) : product xs (@nil B) = [].
Proof. unfold product. induction xs as [|x xs IH]; [done|]. simpl. exact IH. Qed.

Lemma product_cons {A B} (x : A) (xs : list A) (ys : list B) :
  product (x :: xs) ys = ((x ,.) <$> ys) ++ product xs ys.
Proof.
  unfold product. simpl. f_equal.
Qed.

Lemma length_product {A B} (xs : list A) (ys : list B) :
  length (product xs ys) = (length xs * length ys)%nat.
Proof.
  induction xs as [|x xs IH]; [done|].
  rewrite product_cons, length_app, length_fmap, IH. simpl. lia.
Qed.

Lemma product_lookup {A B} (xs : list A) (ys : list B) i j x y :
  xs !! i = Some x → ys !! j = Some y →
  product xs ys !! (i * length ys + j)%nat = Some (x, y).
Proof.
  revert i. induction xs as [|x' xs IH]; intros i Hx Hy; [done|].
  rewrite product_cons. destruct i as [|i]; simpl in *.
  - simplify_eq. rewrite lookup_app_l.
    + by rewrite list_lookup_fmap, Hy.
    + rewrite length_fmap. by eapply lookup_lt_Some.
  - rewrite lookup_app_r; rewrite length_fmap; [|lia].
    replace (length ys + i * length ys + j - length ys)%nat
      with (i * length ys + j)%nat by lia.
    by apply IH.
Qed.

Lemma enumerate_from_lookup {A} (l : list A) start i :
  enumerate_from start l !! i = (λ x, (start + Z.of_nat i, x)) <$> l !! i.
Proof.
  revert start i. induction l as [|x l IH]; intros start i; [done|].
  destruct i as [|i]; simpl.
  - do 2 f_equal. lia.
  - rewrite IH. destruct (l !! i); simpl; [|done]. do 2 f_equal. lia.
Qed.

Lemma length_enumerate_from {A} (l : list A) start :
  length (enumerate_from start l) = length l.
Proof. revert start. induction l as [|x l IH]; intros; simpl; [done|]. by rewrite IH. Qed.

Lemma enumerate_from_ids {A} (l : list A) start :
  (enumerate_from start l).*1 = (λ i, start + Z.of_nat i) <$> seq 0 (length l).
Proof.
  revert start. induction l as [|x l IH]; intros start; [done|].
  simpl. f_equal; [lia|]. rewrite IH, <- fmap_S_seq, <- list_fmap_compose.
  apply list_fmap_ext. intros _ i _. simpl. lia.
Qed.

(** Claim C1. For configurations of length n and seeds of length m, the job
    list has exactly n*m jobs, their job_ids are 0, 1, ..., n*m-1 in this
    order, the job at position i*m+j is (config i, seed j)
    (configuration-major order), and the list is empty when the
    configurations or the seeds are. *)
Theorem C1_job_enumeration (configs : list Config) (seeds : list Seed) :
  let n := length configs in
  let m := length seeds in
  length (make_jobs configs seeds) = (n * m)%nat
  ∧ (make_jobs configs seeds).*1 = Z.of_nat <$> seq 0 (n * m)
  ∧ (∀ i j c s, configs !! i = Some c → seeds !! j = Some s →
       make_jobs configs seeds !! (i * m + j)%nat
       = Some (Z.of_nat (i * m + j), (c, s)))
  ∧ (configs = [] ∨ seeds = [] → make_jobs configs seeds = []).
Proof.
  intros n m. subst n m. unfold make_jobs, enumerate. repeat split.
  - by rewrite length_enumerate_from, length_product.
  - rewrite enumerate_from_ids, length_product. apply list_fmap_ext.
    intros _ i _. lia.
  - intros i j c s Hc Hs. rewrite enumerate_from_lookup.
    by rewrite (product_lookup _ _ _ _ _ _ Hc Hs).
  - intros [-> | ->]; [done|]. by rewrite product_nil_r.
Qed.

(** ** The device allocator and the worker function *)

Section WorkerFacts.
Context {Result : Type}.
Variable run : Config → Seed → Device → path → res Result.
Variable log_path : path.
Variable use_gpu : bool.
Variable gpu_ids : option (list Z).
Variable num_gpu : Z.

Lemma device_for_actions job_id :
  Forall device_action (device_for use_gpu gpu_ids num_gpu job_id).1.
Proof.
  unfold device_for. destruct use_gpu; simpl; [|constructor].
  destruct (device_id_for gpu_ids num_gpu job_id) as [d|e]; simpl;
    [destruct (cuda_device num_gpu d); simpl|];
    repeat match goal with
           | |- Forall _ (_ :: _) => constructor
           | |- Forall _ [] => constructor
           end; unfold device_action; eauto.
Qed.

Lemma _run_device_err job_id c s td e :
  device_for use_gpu gpu_ids num_gpu job_id = (td, Err e) →
  _run run log_path use_gpu gpu_ids num_gpu (job_id, (c, s))
  = (SetNumThreads 1 :: td, Err e).
Proof. intros Hd. unfold _run. by rewrite Hd. Qed.

Lemma _run_device_ok job_id c s td d :
  device_for use_gpu gpu_ids num_gpu job_id = (td, Ok d) →
  _run run log_path use_gpu gpu_ids num_gpu (job_id, (c, s))
  = (SetNumThreads 1 :: td
       ++ [PrintJob (ID c) s d job_id; PrintItems (items c);
           CallRun c s d (leaf_dir log_path (ID c) s)]
       ++ tail_of_job use_gpu (run c s d (leaf_dir log_path (ID c) s)),
     run c s d (leaf_dir log_path (ID c) s)).
Proof.
  intros Hd. unfold _run. rewrite Hd. simpl.
  destruct (run c s d _) as [x|e]; simpl; [|done].
  destruct use_gpu; simpl; by rewrite ?app_nil_r.
Qed.

End WorkerFacts.

Lemma CallRun_in_job {Result use_gpu td job_id c s d l} {r : res Result} {c' s' d' l'} :
  Forall device_action td →
  CallRun c' s' d' l'
    ∈ SetNumThreads 1 :: td
        ++ [PrintJob (ID c) s d job_id; PrintItems (items c); CallRun c s d l]
        ++ tail_of_job use_gpu r
  ↔ c' = c ∧ s' = s ∧ d' = d ∧ l' = l.
Proof.
  rewrite Forall_forall. intros Hd.
  rewrite elem_of_cons, !elem_of_app, !elem_of_cons, elem_of_nil. split.
  - intros [?|[Hin|[[?|[?|[?|[]]]]|Hin]]]; simplify_eq; try done.
    + apply Hd in Hin as [?|[? ?]]; done.
    + destruct r; simpl in Hin; [destruct use_gpu|];
        rewrite ?elem_of_cons, ?elem_of_nil in Hin; naive_solver.
  - intros (-> & -> & -> & ->). eauto 10.
Qed.

Lemma EmptyCache_in_job {Result use_gpu td job_id c s d l} {r : res Result} :
  Forall device_action td →
  EmptyCache
    ∈ SetNumThreads 1 :: td
        ++ [PrintJob (ID c) s d job_id; PrintItems (items c); CallRun c s d l]
        ++ tail_of_job use_gpu r
  ↔ use_gpu = true ∧ ∃ x, r = Ok x.
Proof.
  rewrite Forall_forall. intros Hd.
  rewrite elem_of_cons, !elem_of_app, !elem_of_cons, elem_of_nil. split.
  - intros [?|[Hin|[[?|[?|[?|[]]]]|Hin]]]; simplify_eq.
    + apply Hd in Hin as [?|[? ?]]; done.
    + destruct r; simpl in Hin; [destruct use_gpu|];
        rewrite ?elem_of_cons, ?elem_of_nil in Hin; naive_solver.
  - intros [-> [x ->]]. simpl. rewrite elem_of_cons. eauto 10.
Qed.

Lemma device_err_quiet {td a} :
  Forall device_action td → a ∈ SetNumThreads 1 :: td →
  a ≠ EmptyCache ∧ ∀ c s d l, a ≠ CallRun c s d l.
Proof.
  rewrite Forall_forall. intros Hd [->|Hin]%elem_of_cons; [done|].
  apply Hd in Hin as [->|[? ->]]; done.
Qed.

Lemma py_mod_pos a b : 0 < b → py_mod a b = Ok (a `mod` b).
Proof. intros. unfold py_mod. case_decide; [lia|done]. Qed.

Lemma py_index_nat {A} (l : list A) (i : Z) x :
  0 ≤ i → l !! Z.to_nat i = Some x → py_index l i = Ok x.
Proof.
  intros Hi Hx. unfold py_index. apply lookup_lt_Some in Hx as Hlt.
  cbv zeta. rewrite (decide_False (P := i < 0)) by lia.
  rewrite decide_True by lia. by rewrite Hx.
Qed.

Lemma in_range_forallb (ids : list Z) k :
  forallb (λ i, (i >=? 0) && (i <? k)) ids = true ↔ Forall (λ i, 0 ≤ i < k) ids.
Proof.
  rewrite forallb_forall, Forall_forall. split; intros H i Hi.
  - apply list_elem_of_In, H in Hi. lia.
  - apply list_elem_of_In, H in Hi. lia.
Qed.

Lemma device_id_for_ids (ids : list Z) k job_id :
  ids ≠ [] → Forall (λ i, 0 ≤ i < k) ids →
  ∃ d, ids !! Z.to_nat (job_id `mod` Z.of_nat (length ids)) = Some d
     ∧ device_id_for (Some ids) k job_id = Ok d.
Proof.
  intros Hne Hall. set (n := Z.of_nat (length ids)).
  assert (0 < n) by (destruct ids; [done|]; subst n; simpl; lia).
  assert (0 ≤ job_id `mod` n < n) as Hm by (apply Z.mod_pos_bound; lia).
  destruct (lookup_lt_is_Some_2 ids (Z.to_nat (job_id `mod` n))) as [d Hd].
  { subst n. lia. }
  exists d. split; [done|]. unfold device_id_for.
  apply in_range_forallb in Hall. rewrite Hall. simpl.
  fold n. rewrite py_mod_pos by done. apply py_index_nat; [lia|done].
Qed.

(** Claim C5. In accelerator mode with a non-empty [gpu_ids] whose entries
    all lie in [0, num_gpu), the job [job_id >= 0] is given the device
    gpu_ids[job_id mod len(gpu_ids)]: an element of gpu_ids, and the same
    device as job [job_id + len(gpu_ids)]. *)
Theorem C5_round_robin_subset (ids : list Z) (k job_id : Z) :
  ids ≠ [] → Forall (λ i, 0 ≤ i < k) ids → 0 ≤ job_id →
  ∃ d, ids !! Z.to_nat (job_id `mod` Z.of_nat (length ids)) = Some d
     ∧ d ∈ ids
     ∧ device_for true (Some ids) k job_id
       = ([DeviceCount; SetDevice d], Ok (cuda d))
     ∧ device_for true (Some ids) k (job_id + Z.of_nat (length ids))
       = device_for true (Some ids) k job_id.
Proof.
  intros Hne Hall Hj.
  destruct (device_id_for_ids ids k job_id Hne Hall) as (d & Hd & Hid).
  destruct (device_id_for_ids ids k (job_id + Z.of_nat (length ids)) Hne Hall)
    as (d' & Hd' & Hid').
  assert (d' = d) as ->.
  { rewrite <- (Z.mul_1_l (Z.of_nat (length ids))) in Hd' at 1.
    rewrite Z.mod_add in Hd' by (destruct ids; [done|simpl; lia]). congruence. }
  assert (d ∈ ids) as Hin by (by eapply list_elem_of_lookup_2).
  exists d. repeat split; [done..| |].
  - unfold device_for. rewrite Hid. simpl. unfold cuda_device.
    rewrite Forall_forall in Hall. apply Hall in Hin. by case_decide.
  - unfold device_for. by rewrite Hid, Hid'.
Qed.

Example C5_example :
  (λ j, (device_for true (Some [2; 3]) 4 j).2) <$> [0; 1; 2; 3]
  = [Ok (cuda 2); Ok (cuda 3); Ok (cuda 2); Ok (cuda 3)].
Proof. reflexivity. Qed.

(** Claim C6. In accelerator mode with [gpu_ids] unset and k >= 1 detected
    devices, the job [job_id >= 0] is given the device [job_id mod k], which
    lies in [0, k). *)
Theorem C6_round_robin_all (k job_id : Z) :
  0 < k → 0 ≤ job_id →
  device_for true None k job_id
  = ([DeviceCount; SetDevice (job_id `mod` k)], Ok (cuda (job_id `mod` k)))
  ∧ 0 ≤ job_id `mod` k < k.
Proof.
  intros Hk Hj. assert (0 ≤ job_id `mod` k < k) by (apply Z.mod_pos_bound; lia).
  split; [|done]. unfold device_for, device_id_for. rewrite py_mod_pos by done.
  simpl. unfold cuda_device. by case_decide.
Qed.

Lemma device_for_no_devices job_id :
  device_for true None 0 job_id = ([DeviceCount], Err ZeroDivisionError).
Proof. reflexivity. Qed.

Example C6_example :
  (λ j, (device_for true None 4 j).2) <$> [0; 1; 2; 3; 4; 5]
  = [Ok (cuda 0); Ok (cuda 1); Ok (cuda 2); Ok (cuda 3); Ok (cuda 0); Ok (cuda 1)].
Proof. reflexivity. Qed.

(** Claim C9. With [use_gpu] false the device is the host CPU for every job
    and every [gpu_ids]: the allocator makes no torch call and raises
    nothing, the job is what the run function makes of it on [cpu], and
    neither [gpu_ids] nor the device count has any influence. *)
Theorem C9_cpu_mode {Result} (run : Config → Seed → Device → path → res Result)
    (log_path : path) (gpu_ids : option (list Z)) (k job_id : Z)
    (c : Config) (s : Seed) :
  device_for false gpu_ids k job_id = ([], Ok cpu)
  ∧ _run run log_path false gpu_ids k (job_id, (c, s))
    = ([SetNumThreads 1; PrintJob (ID c) s cpu job_id; PrintItems (items c);
        CallRun c s cpu (leaf_dir log_path (ID c) s)],
       run c s cpu (leaf_dir log_path (ID c) s))
  ∧ (∀ gpu_ids' k', _run run log_path false gpu_ids' k' (job_id, (c, s))
                    = _run run log_path false gpu_ids k (job_id, (c, s))).
Proof.
  assert (∀ g n, _run run log_path false g n (job_id, (c, s))
    = ([SetNumThreads 1; PrintJob (ID c) s cpu job_id; PrintItems (items c);
        CallRun c s cpu (leaf_dir log_path (ID c) s)],
       run c s cpu (leaf_dir log_path (ID c) s))) as H.
  { intros g n. rewrite (_run_device_ok _ _ _ _ _ _ _ _ [] cpu) by done.
    simpl. by destruct (run c s cpu _). }
  split_and!; [done|apply H|]. intros. by rewrite !H.
Qed.

(** Claim C10. The accelerator cache is emptied exactly when [use_gpu] is
    true and the run function was called and returned normally; when the
    run function raises, [_run] raises the same exception and the cache is
    not emptied; when it is emptied, that is the last action, directly
    after the run. *)
Theorem C10_cache_cleanup {Result}
    (run : Config → Seed → Device → path → res Result) (log_path : path)
    (use_gpu : bool) (gpu_ids : option (list Z))
    (k job_id : Z) (c : Config) (s : Seed) :
  let logdir := leaf_dir log_path (ID c) s in
  let out := _run run log_path use_gpu gpu_ids k (job_id, (c, s)) in
  (EmptyCache ∈ out.1 ↔
     use_gpu = true
     ∧ ∃ d x, CallRun c s d logdir ∈ out.1 ∧ run c s d logdir = Ok x)
  ∧ (∀ d e, CallRun c s d logdir ∈ out.1 → run c s d logdir = Err e →
       out.2 = Err e ∧ EmptyCache ∉ out.1)
  ∧ (EmptyCache ∈ out.1 →
       ∃ t d x, out = (t ++ [CallRun c s d logdir; EmptyCache], Ok x)
              ∧ EmptyCache ∉ t).
Proof.
  intros logdir out. subst out.
  pose proof (device_for_actions use_gpu gpu_ids k job_id) as Hd.
  destruct (device_for use_gpu gpu_ids k job_id) as [td [d|e]] eqn:Hdev;
    simpl in Hd;
    [rewrite (_run_device_ok _ _ _ _ _ _ _ _ _ _ Hdev)
    |rewrite (_run_device_err _ _ _ _ _ _ _ _ _ _ Hdev)]; fold logdir; cbn [fst snd].
  - rewrite EmptyCache_in_job by done. split_and!.
    + split; intros [-> [x Hx]]; (split; [done|]).
      * exists d, x. split; [|done]. by apply CallRun_in_job.
      * destruct Hx as (x' & Hin & Hx).
        pose proof (proj1 (CallRun_in_job Hd) Hin)
          as (_ & _ & -> & _). eauto.
    + intros d' e Hin Hr.
      pose proof (proj1 (CallRun_in_job Hd) Hin)
        as (_ & _ & -> & _). split; [done|].
      rewrite EmptyCache_in_job by done. intros [_ [x Hx]]. congruence.
    + intros [-> [x Hx]]. rewrite Hx. simpl.
      exists (SetNumThreads 1 :: td
                ++ [PrintJob (ID c) s d job_id; PrintItems (items c)]), d, x.
      split; [simpl; by rewrite <- app_assoc|].
      rewrite Forall_forall in Hd.
      rewrite elem_of_cons, elem_of_app, !elem_of_cons, elem_of_nil.
      intros [?|[Hin|[?|[?|[]]]]]; try done.
      apply Hd in Hin as [?|[? ?]]; done.
  - split_and!.
    + split.
      * intros Hin. by destruct (device_err_quiet Hd Hin).
      * intros [_ (d & x & Hin & _)].
        destruct (device_err_quiet Hd Hin) as [_ Hc]. by destruct (Hc c s d logdir).
    + intros d e' Hin. destruct (device_err_quiet Hd Hin) as [_ Hc].
      by destruct (Hc c s d logdir).
    + intros Hin. by destruct (device_err_quiet Hd Hin).
Qed.

(** ** Serial dispatch *)

Section SerialFacts.
Context {Result : Type}.
Variable fn : Job → Wk Result.

Lemma map_jobs_app (a b : list Job) :
  map_jobs fn (a ++ b)
  = match map_jobs fn a with
    | (t, Ok xs) =>
        (t ++ (map_jobs fn b).1,
         match (map_jobs fn b).2 with Ok ys => Ok (xs ++ ys) | Err e => Err e end)
    | (t, Err e) => (t, Err e)
    end.
Proof.
  induction a as [|job a IH]; simpl.
  - by destruct (map_jobs fn b) as [t [ys|e]].
  - destruct (fn job) as [t [x|e]]; [|done]. rewrite IH.
    destruct (map_jobs fn a) as [ta [xs|e]]; simpl; [|done].
    rewrite app_assoc. by destruct (map_jobs fn b).2.
Qed.

Lemma map_jobs_events (jobs : list Job) ev :
  ev ∈ (map_jobs fn jobs).1 → ∃ job, job ∈ jobs ∧ ev ∈ job_events fn job.
Proof.
  induction jobs as [|job jobs IH]; simpl; [by intros ?%elem_of_nil|].
  unfold job_events at 1.
  destruct (fn job) as [t [x|e]] eqn:Hj.
  - destruct (map_jobs fn jobs) as [t' r]. simpl in *.
    intros [Hin|Hin]%elem_of_app.
    + exists job. rewrite Hj. split; [left|done].
    + destruct (IH Hin) as (job' & ? & ?). exists job'. split; [by right|done].
  - simpl. intros Hin. exists job. rewrite Hj. split; [left|done].
Qed.

Lemma map_jobs_all_ok (jobs : list Job) :
  (∀ job, job ∈ jobs → ∃ x, (fn job).2 = Ok x) →
  ∃ xs, map_jobs fn jobs = (mjoin (job_events fn <$> jobs), Ok xs)
      ∧ Forall2 (λ job x, (fn job).2 = Ok x) jobs xs.
Proof.
  induction jobs as [|job jobs IH]; intros Hall; simpl.
  - exists []. by split.
  - destruct (Hall job (list_elem_of_here _ _)) as [x Hx].
    destruct IH as (xs & Hxs & HF).
    { intros job' ?. apply Hall. by right. }
    unfold job_events at 1. destruct (fn job) as [t r] eqn:Hfn. simpl in Hx. subst r.
    rewrite Hxs. exists (x :: xs). simpl. split; [done|].
    constructor; [by rewrite Hfn|done].
Qed.

Lemma map_jobs_first_error (pre post : list Job) job e :
  (∀ job', job' ∈ pre → ∃ x, (fn job').2 = Ok x) →
  (fn job).2 = Err e →
  map_jobs fn (pre ++ job :: post)
  = (mjoin (job_events fn <$> pre ++ [job]), Err e).
Proof.
  intros Hpre Hjob. rewrite map_jobs_app.
  destruct (map_jobs_all_ok pre Hpre) as (xs & -> & _). simpl.
  rewrite fmap_app, join_app. simpl. rewrite app_nil_r.
  change (job_events fn job) with (tag job (fn job).1).
  destruct (fn job) as [t r]. simpl in Hjob. by subst r.
Qed.

Lemma dispatch_serial fate chunksize sched jobs w :
  dispatch fn fate None chunksize sched jobs w
  = (after w (map_jobs fn jobs).1, outcome_of (map_jobs fn jobs).2).
Proof.
  unfold dispatch. destruct (map_jobs fn jobs) as [t [xs|e]]; reflexivity.
Qed.
End SerialFacts.

Lemma after_nil w : after w [] = w.
Proof. destruct w. unfold after. simpl. by rewrite app_nil_r. Qed.

Lemma make_jobs_id configs seeds (i : nat) job :
  make_jobs configs seeds !! i = Some job → job.1 = Z.of_nat i.
Proof.
  unfold make_jobs, enumerate. rewrite enumerate_from_lookup.
  destruct (product configs seeds !! i); simpl; [|done]. intros [= <-]. simpl. lia.
Qed.

Lemma job_events_id {Result} (fn : Job → Wk Result) job id a :
  InJob id a ∈ job_events fn job → id = job.1.
Proof.
  unfold job_events, tag. intros (a' & [= -> ->] & _)%list_elem_of_fmap. done.
Qed.

(** Claim C7. In serial mode the jobs run one after the other in the order
    of the job list. When all return, the results are returned in that
    order; when job i is the first to raise, the exception is the outcome
    of the dispatch (no list of partial results), the events are those of
    jobs 0..i in order, and no job with a larger job_id has done
    anything. *)
Theorem C7_serial_fail_fast {Result}
    (run : Config → Seed → Device → path → res Result) (log_path : path)
    (use_gpu : bool) (gpu_ids : option (list Z)) (num_gpu : Z)
    (configs : list Config) (seeds : list Seed)
    (fate : res (list Result) → Fate)
    (chunksize : Z) (sched : list nat) (w : World) :
  let fn := _run run log_path use_gpu gpu_ids num_gpu in
  let jobs := make_jobs configs seeds in
  ((∀ job, job ∈ jobs → ∃ x, (fn job).2 = Ok x) →
   ∃ xs, dispatch fn fate None chunksize sched jobs w
         = (after w (mjoin (job_events fn <$> jobs)), Ret xs)
       ∧ Forall2 (λ job x, (fn job).2 = Ok x) jobs xs)
  ∧ (∀ (i : nat) job e,
       jobs !! i = Some job →
       (∀ job', job' ∈ take i jobs → ∃ x, (fn job').2 = Ok x) →
       (fn job).2 = Err e →
       let ran := mjoin (job_events fn <$> take (S i) jobs) in
       dispatch fn fate None chunksize sched jobs w = (after w ran, Raise e)
       ∧ (∀ id a, InJob id a ∈ ran → 0 ≤ id ≤ Z.of_nat i)).
Proof.
  intros fn jobs. split.
  - intros Hall. destruct (map_jobs_all_ok fn jobs Hall) as (xs & Hxs & HF).
    exists xs. by rewrite dispatch_serial, Hxs.
  - intros i job e Hi Hpre Hjob ran. split.
    + rewrite dispatch_serial.
      rewrite <- (take_drop_middle jobs i job Hi) at 1 2.
      rewrite (map_jobs_first_error fn _ _ _ e Hpre Hjob). simpl.
      subst ran. by rewrite (take_S_r _ _ _ Hi).
    + intros id a (evs & Hin & (job' & -> & Hjob')%list_elem_of_fmap)%list_elem_of_join.
      apply job_events_id in Hin as ->.
      apply elem_of_take in Hjob' as (j & Hj & Hlt).
      apply make_jobs_id in Hj as ->. lia.
Qed.

(** Claim C8. With empty configurations or empty seeds the job list is
    empty; pooled dispatch then asks for min(max_workers, 0) workers, a
    number that is never positive (0 for max_workers >= 0), is refused with
    ValueError and returns nothing, while serial dispatch returns the empty
    list. *)
Theorem C8_empty_job_list {Result} (fn : Job → Wk Result)
    (fate : res (list Result) → Fate) (max_workers chunksize : Z)
    (sched : list nat) (configs : list Config) (seeds : list Seed) (w : World) :
  configs = [] ∨ seeds = [] →
  let jobs := make_jobs configs seeds in
  jobs = []
  ∧ py_min max_workers (Z.of_nat (length jobs)) ≤ 0
  ∧ (0 ≤ max_workers → py_min max_workers (Z.of_nat (length jobs)) = 0)
  ∧ dispatch fn fate (Some max_workers) chunksize sched jobs w = (w, Raise ValueError)
  ∧ dispatch fn fate None chunksize sched jobs w = (w, Ret []).
Proof.
  intros Hempty jobs.
  assert (jobs = []) as ->.
  { subst jobs. destruct Hempty as [-> | ->]; [done|].
    unfold make_jobs. by rewrite product_nil_r. }
  split_and!; [done|..].
  - unfold py_min. simpl. case_decide; lia.
  - intros. unfold py_min. simpl. case_decide; lia.
  - unfold dispatch. rewrite decide_True; [done|]. unfold py_min. simpl. case_decide; lia.
  - rewrite dispatch_serial. simpl. by rewrite after_nil.
Qed.

(** ** The process pool *)

Lemma join_get_chunks_go {A} (fuel n : nat) (it : list A) :
  (1 ≤ n)%nat → (length it ≤ fuel)%nat → mjoin (get_chunks_go fuel n it) = it.
Proof.
  intros Hn. revert it. induction fuel as [|fuel IH]; intros it Hlen; simpl.
  - destruct it; [done|simpl in Hlen; lia].
  - destruct (take n it) as [|x chunk] eqn:Htake.
    + apply take_nil_inv in Htake as [->| ->]; [lia|done].
    + assert (mjoin (get_chunks_go fuel n (drop n it)) = drop n it) as IH'
        by (apply IH; rewrite length_drop; lia).
      simpl. rewrite IH', app_comm_cons, <- Htake. apply take_drop.
Qed.

Lemma join_get_chunks {A} (n : nat) (it : list A) :
  (1 ≤ n)%nat → mjoin (get_chunks n it) = it.
Proof. intros. by apply join_get_chunks_go. Qed.

Lemma sum_list_with_middle {A} (f : A → nat) (l : list A) i x :
  l !! i = Some x →
  sum_list_with f l
  = (sum_list_with f (take i l) + f x + sum_list_with f (drop (S i) l))%nat.
Proof.
  intros Hi. rewrite <- (take_drop_middle l i x Hi) at 1.
  rewrite sum_list_with_app. simpl. lia.
Qed.

Lemma sum_list_with_zero {A} (f : A → nat) (l : list A) :
  (∀ x, 0 < f x)%nat → sum_list_with f l = 0%nat → l = [].
Proof.
  intros Hpos. destruct l as [|x l]; [done|]. simpl. specialize (Hpos x). lia.
Qed.

Lemma sum_list_with_fmap {A B} (f : B → nat) (g : A → B) (l : list A) :
  sum_list_with f (g <$> l) = sum_list_with (λ x, f (g x)) l.
Proof. induction l as [|x l IH]; simpl; [done|]. f_equal. exact IH. Qed.

Lemma break_lookup {A} (v : A) (fs : gmap nat A) (ids : list nat) (i : nat) :
  foldr (λ i fs, <[i := v]> fs) fs ids !! i
  = if decide (i ∈ ids) then Some v else fs !! i.
Proof.
  induction ids as [|j ids IH].
  - cbn [foldr]. case_decide as Hin; [|reflexivity].
    by apply elem_of_nil in Hin.
  - cbn [foldr]. destruct (decide (i = j)) as [->|Hne].
    + rewrite lookup_insert_eq. rewrite decide_True by left. reflexivity.
    + rewrite lookup_insert_ne by done. rewrite IH.
      destruct (decide (i ∈ ids)) as [Hin|Hin].
      * rewrite decide_True by (by right). reflexivity.
      * rewrite decide_False; [reflexivity|].
        by intros [?|?]%elem_of_cons.
Qed.

Section PoolFacts.
Context {Result : Type}.
Variable fn : Job → Wk Result.
Variable fate : res (list Result) → Fate.
Variable chunks : list (list Job).

Lemma pool_fill_inv w (p : Pool Result) :
  pool_inv fn fate chunks p → pool_inv fn fate chunks (pool_fill w p).
Proof.
  intros [Hp Hr Hf Hc Hh]. unfold pool_fill. split; simpl; [| | done | | done].
  - by apply Forall_drop.
  - apply Forall_app. split; [done|]. apply Forall_fmap.
    apply Forall_take. eapply Forall_impl; [exact Hp|].
    intros [i c] Hi. exists []. simpl in *. by split.
  - intros i Hi. destruct (Hc i Hi) as [Hin|[Hin|?]]; [|right; left|by right; right].
    + rewrite <- (take_drop (w - length (running p)) (pending p)), fmap_app in Hin.
      apply elem_of_app in Hin as [Hin|Hin]; [right; left|by left].
      rewrite fmap_app, elem_of_app. right.
      rewrite <- list_fmap_compose. exact Hin.
    + rewrite fmap_app, elem_of_app. by left.
Qed.

Lemma pool_fill_work w (p : Pool Result) : pool_work (pool_fill w p) = pool_work p.
Proof.
  unfold pool_work, pool_fill. cbn [pending running].
  rewrite sum_list_with_app, sum_list_with_fmap.
  rewrite <- (take_drop (w - length (running p)) (pending p)) at 3.
  rewrite sum_list_with_app. simpl. lia.
Qed.

Lemma pool_fill_idle w (p : Pool Result) :
  (1 ≤ w)%nat → running (pool_fill w p) = [] → pool_work (pool_fill w p) = 0%nat.
Proof.
  intros Hw Hidle. unfold pool_work. rewrite Hidle. simpl.
  unfold pool_fill in *. simpl in *.
  apply app_eq_nil in Hidle as [Hrun Htake]. rewrite Hrun in *. simpl in *.
  apply fmap_nil_inv in Htake. apply take_nil_inv in Htake as [?| ->]; [lia|].
  by rewrite drop_nil.
Qed.

Lemma complete_inv i s c o t (p : Pool Result) :
  running p !! i = Some s → pool_inv fn fate chunks p →
  chunks !! future s = Some c → o = (map_jobs fn c).2 →
  Forall (from_chunks fn chunks) t →
  pool_inv fn fate chunks (complete fate i s o t p).
Proof.
  intros Hi [Hp Hr Hf Hc Hh] Hchunk -> Ht. unfold complete.
  assert (Forall (from_chunks fn chunks) (happened p ++ t)) as Hh' by by apply Forall_app.
  assert (∀ j, j ∈ future <$> running p →
            j = future s ∨ j ∈ future <$> delete i (running p)) as Hdel.
  { intros j Hj. rewrite <- (take_drop_middle _ _ _ Hi) in Hj.
    rewrite delete_take_drop. rewrite fmap_app, fmap_cons in Hj.
    rewrite fmap_app. rewrite elem_of_app, elem_of_cons in Hj.
    rewrite elem_of_app. naive_solver. }
  destruct (deliver fate (map_jobs fn c).2) as [r|] eqn:Hd.
  - split; simpl; [done| by apply Forall_delete | | | done].
    + intros j r'. destruct (decide (j = future s)) as [->|Hne].
      * rewrite lookup_insert_eq. intros [= <-]. exists c. split; [done|]. by left.
      * rewrite lookup_insert_ne by done. apply Hf.
    + intros j Hj. destruct (Hc j Hj) as [?|[Hin|Hs]]; [by left| |].
      * destruct (Hdel j Hin) as [->|?]; [|by right; left].
        right; right. rewrite lookup_insert_eq. eauto.
      * right; right. destruct (decide (j = future s)) as [->|Hne].
        -- rewrite lookup_insert_eq. eauto.
        -- by rewrite lookup_insert_ne.
  - unfold break_pool. split; simpl; [constructor|constructor| | |done].
    + intros j r'. rewrite break_lookup. case_decide as Hin.
      * intros [= <-].
        assert (∃ c', chunks !! j = Some c') as [c' Hc'].
        { apply elem_of_app in Hin as [Hin|Hin].
          - apply list_elem_of_fmap in Hin as (s' & -> & Hs').
            rewrite Forall_forall in Hr.
            destruct (Hr s' Hs') as (pre & Hpre & _). eauto.
          - apply list_elem_of_fmap in Hin as ([j' c'] & -> & Hitem).
            rewrite Forall_forall in Hp. specialize (Hp _ Hitem). eauto. }
        exists c'. split; [done|]. right. split; [done|].
        exists c. split; [|done]. by eapply list_elem_of_lookup_2.
      * apply Hf.
    + intros j Hj. right. right. rewrite break_lookup. case_decide as Hin; [eauto|].
      destruct (Hc j Hj) as [Hin'|[Hin'|Hs]]; [| |done].
      * destruct Hin. apply elem_of_app. by right.
      * destruct Hin. apply elem_of_app. by left.
Qed.

Lemma slot_step_inv i s (p : Pool Result) :
  running p !! i = Some s → pool_inv fn fate chunks p →
  pool_inv fn fate chunks (slot_step fn fate i s p).
Proof.
  intros Hi Hinv. pose proof Hinv as [Hp Hr Hf Hc Hh]. unfold slot_step.
  assert (slot_ok fn chunks s) as (pre & Hchunk & Hpre).
  { rewrite Forall_forall in Hr. apply Hr. by eapply list_elem_of_lookup_2. }
  destruct (todo s) as [|job rest] eqn:Htodo.
  - apply (complete_inv i s (pre ++ [])); [done|done|done| |constructor].
    by rewrite app_nil_r.
  - assert (job ∈ mjoin chunks) as Hjob.
    { apply list_elem_of_join. eexists. split; [|by eapply list_elem_of_lookup_2].
      rewrite elem_of_app. right. left. }
    assert (Forall (from_chunks fn chunks) (tag job (fn job).1)) as Ht.
    { apply Forall_forall. intros ev Hev. exists job. by split. }
    destruct (fn job) as [t [x|e]] eqn:Hfn; simpl in Ht.
    + split; simpl; [done| | done | |by apply Forall_app].
      * apply Forall_insert; [done|]. exists (pre ++ [job]). simpl. split.
        -- by rewrite <- app_assoc.
        -- rewrite map_jobs_app. destruct (map_jobs fn pre) as [tp rp].
           simpl in Hpre. subst rp. simpl. by rewrite Hfn.
      * intros j Hj. rewrite list_fmap_insert. simpl.
        rewrite list_insert_id; [by apply Hc|].
        by rewrite list_lookup_fmap, Hi.
    + apply (complete_inv i s (pre ++ job :: rest)); [done|done|done| |done].
      rewrite map_jobs_app. destruct (map_jobs fn pre) as [tp rp].
      simpl in Hpre. subst rp. simpl. by rewrite Hfn.
Qed.

Lemma complete_work i s o t (p : Pool Result) :
  running p !! i = Some s → (pool_work (complete fate i s o t p) < pool_work p)%nat.
Proof.
  intros Hi. unfold pool_work, complete.
  rewrite (sum_list_with_middle _ (running p) i s Hi).
  destruct (deliver fate o); simpl; [|lia].
  rewrite delete_take_drop, sum_list_with_app. lia.
Qed.

Lemma slot_step_work i s (p : Pool Result) :
  running p !! i = Some s → (pool_work (slot_step fn fate i s p) < pool_work p)%nat.
Proof.
  intros Hi. unfold slot_step.
  destruct (todo s) as [|job rest] eqn:Htodo; [by apply complete_work|].
  destruct (fn job) as [t [x|e]]; [|by apply complete_work].
  unfold pool_work. rewrite (sum_list_with_middle _ (running p) i s Hi).
  assert (i < length (running p))%nat by (by eapply lookup_lt_Some).
  simpl. rewrite insert_take_drop by done. rewrite sum_list_with_app.
  simpl. rewrite Htodo. simpl. lia.
Qed.

Lemma pool_step_inv w n (p : Pool Result) :
  pool_inv fn fate chunks p → pool_inv fn fate chunks (pool_step fn fate w n p).
Proof.
  intros Hinv. unfold pool_step.
  pose proof (pool_fill_inv w p Hinv) as Hinv'.
  destruct (running (pool_fill w p) !! _) as [s|] eqn:Hs; [|done].
  by apply slot_step_inv.
Qed.

Lemma pool_step_work w n (p : Pool Result) :
  (1 ≤ w)%nat →
  (pool_work (pool_step fn fate w n p) < pool_work p)%nat
  ∨ pool_work (pool_step fn fate w n p) = 0%nat.
Proof.
  intros Hw. unfold pool_step.
  destruct (running (pool_fill w p) !! _) as [s|] eqn:Hs.
  - left. rewrite <- (pool_fill_work w p). by apply slot_step_work.
  - right. apply pool_fill_idle; [done|].
    destruct (running (pool_fill w p)) as [|s0 l] eqn:Hrun; [done|].
    apply lookup_ge_None in Hs.
    pose proof (Nat.mod_upper_bound n (length (s0 :: l))) as Hb.
    simpl in *. lia.
Qed.

Lemma pool_run_done w fuel sched (p : Pool Result) :
  (1 ≤ w)%nat → pool_inv fn fate chunks p → (pool_work p ≤ fuel)%nat →
  pool_inv fn fate chunks (pool_run fn fate w fuel sched p)
  ∧ pool_work (pool_run fn fate w fuel sched p) = 0%nat.
Proof.
  intros Hw. revert sched p. induction fuel as [|fuel IH]; intros sched p Hinv Hle.
  - simpl. split; [done|lia].
  - simpl. apply IH; [by apply pool_step_inv|].
    destruct (pool_step_work w (default 0%nat (head sched)) p Hw); lia.
Qed.

Lemma deliver_ok (o : res (list Result)) ys :
  deliver fate o = Some (Ok ys) → o = Ok ys.
Proof.
  unfold deliver. destruct o as [xs|e].
  - destruct (fate (Ok xs)); naive_solver.
  - destruct e; try done; destruct (fate _); naive_solver.
Qed.



(** When the drained futures give a list, it is the list of the serial
    loop, provided a future that holds results holds those of its chunk. *)
Lemma drain_ret (fs : gmap nat (res (list Result))) (cs : list (list Job)) k xs :
  (∀ j c r, cs !! j = Some c → fs !! (k + j)%nat = Some r →
     ∀ ys, r = Ok ys → (map_jobs fn c).2 = Ok ys) →
  drain fs (seq k (length cs)) = Ret xs →
  (map_jobs fn (mjoin cs)).2 = Ok xs.
Proof.
  revert k xs. induction cs as [|c cs IH]; intros k xs Hfs; simpl.
  { by intros [= <-]. }
  pose proof (Hfs 0%nat c) as H0. rewrite Nat.add_0_r in H0.
  destruct (fs !! k) as [[ys|e]|] eqn:Hk; [|done..].
  specialize (H0 (Ok ys) eq_refl eq_refl ys eq_refl).
  destruct (drain fs (seq (S k) (length cs))) as [zs| |] eqn:Hd; [|done..].
  intros [= <-]. rewrite map_jobs_app.
  assert ((map_jobs fn (mjoin cs)).2 = Ok zs) as Hrest.
  { apply (IH (S k)); [|done]. intros j c' r Hj Hr.
    apply (Hfs (S j) c' r Hj). rewrite <- Hr. f_equal. lia. }
  destruct (map_jobs fn c) as [t r]. simpl in H0. subst r. simpl.
  by rewrite Hrest.
Qed.

Lemma drain_defined (fs : gmap nat (res (list Result))) (ids : list nat) :
  (∀ i, i ∈ ids → is_Some (fs !! i)) → drain fs ids ≠ Blocked.
Proof.
  induction ids as [|i ids IH]; intros Hfs; simpl; [done|].
  destruct (Hfs i) as [r Hr]; [left|]. rewrite Hr.
  destruct r as [rs|e]; [|done].
  assert (drain fs ids ≠ Blocked) as Hrest.
  { apply IH. intros j Hj. apply Hfs. by right. }
  by destruct (drain fs ids).
Qed.


(** When no work is left, every future is completed. *)
Lemma pool_done (p : Pool Result) :
  pool_inv fn fate chunks p → pool_work p = 0%nat →
  ∀ j, (j < length chunks)%nat → is_Some (futures p !! j).
Proof.
  intros [Hp Hr Hf Hc Hh] Hwork j Hj. unfold pool_work in Hwork.
  assert (pending p = []) as Hpend
    by (apply (sum_list_with_zero (λ item, S (length item.2))); [intros; lia|lia]).
  assert (running p = []) as Hrun
    by (apply (sum_list_with_zero (λ s, S (length (todo s)))); [intros; lia|lia]).
  destruct (Hc j Hj) as [Hin|[Hin|?]]; [| |done].
  - rewrite Hpend in Hin. by apply elem_of_nil in Hin.
  - rewrite Hrun in Hin. by apply elem_of_nil in Hin.
Qed.

Lemma pool_done_defined (p : Pool Result) :
  pool_inv fn fate chunks p → pool_work p = 0%nat →
  drain (futures p) (seq 0 (length chunks)) ≠ Blocked.
Proof.
  intros Hinv Hwork. apply drain_defined. intros i Hi%elem_of_seq.
  apply pool_done; [done|done|lia].
Qed.

Lemma pool_done_ret (p : Pool Result) xs :
  pool_inv fn fate chunks p →
  drain (futures p) (seq 0 (length chunks)) = Ret xs →
  (map_jobs fn (mjoin chunks)).2 = Ok xs.
Proof.
  intros [Hp Hr Hf Hc Hh]. apply drain_ret. simpl.
  intros j c r Hj Hfut ys ->.
  destruct (Hf j _ Hfut) as (c' & Hc' & [Hd|[? _]]); [|done].
  apply deliver_ok in Hd. congruence.
Qed.

End PoolFacts.

Lemma imap_work (g : nat → nat) (cs : list (list Job)) :
  sum_list_with (λ item : nat * list Job, S (length item.2))
    (imap (λ i c, (g i, c)) cs)
  = (length (mjoin cs) + length cs)%nat.
Proof.
  revert g. induction cs as [|c cs IH]; intros g; [done|].
  rewrite imap_cons. pose proof (IH (λ i, g (S i))) as IH'.
  simpl. rewrite length_app. unfold compose. rewrite IH'. lia.
Qed.

Section DispatchFacts.
Context {Result : Type}.
Variable fn : Job → Wk Result.
Variable fate : res (list Result) → Fate.

Lemma pool_start_inv (chunks : list (list Job)) :
  pool_inv fn fate chunks (mkPool (imap (λ i c, (i, c)) chunks) [] ∅ []).
Proof.
  split; simpl; [| constructor | | | constructor].
  - apply Forall_forall. intros [i c] Hin.
    apply list_elem_of_lookup_1 in Hin as [j Hj].
    rewrite list_lookup_imap in Hj. destruct (chunks !! j) eqn:Hc; [|done].
    simpl in Hj. by simplify_eq.
  - intros i r. by rewrite lookup_empty.
  - intros i Hi. left. apply list_elem_of_fmap.
    destruct (lookup_lt_is_Some_2 chunks i Hi) as [c Hc].
    exists (i, c). split; [done|]. eapply list_elem_of_lookup_2.
    by rewrite list_lookup_imap, Hc.
Qed.

Lemma pool_start_work (chunks : list (list Job)) :
  pool_work (mkPool (imap (λ i c, (i, c)) chunks) []
                    (∅ : gmap nat (res (list Result))) [])
  = pool_fuel chunks.
Proof.
  unfold pool_work, pool_fuel. simpl. rewrite Nat.add_0_r.
  apply (imap_work (λ i, i)).
Qed.

(** With valid arguments the pool runs until no work is left, whatever
    the schedule, and the caller drains the futures of a pool in which
    the invariant holds. *)
Lemma pool_map_done (max_workers : nat) (sched : list nat) (chunksize : Z)
    (jobs : list Job) :
  (1 ≤ max_workers)%nat → 1 ≤ chunksize →
  let chunks := get_chunks (Z.to_nat chunksize) jobs in
  mjoin chunks = jobs
  ∧ ∃ p, pool_inv fn fate chunks p
       ∧ pool_work p = 0%nat
       ∧ pool_map fn fate max_workers sched chunksize jobs
         = (happened p, drain (futures p) (seq 0 (length chunks))).
Proof.
  intros Hw Hc chunks. split; [apply join_get_chunks; lia|].
  unfold pool_map. rewrite decide_False by lia. fold chunks.
  destruct (pool_run_done fn fate chunks max_workers (pool_fuel chunks) sched
              (mkPool (imap (λ i c, (i, c)) chunks) [] ∅ []) Hw
              (pool_start_inv chunks)) as [Hinv Hwork].
  { by rewrite pool_start_work. }
  eexists. by split_and!.
Qed.

(** The workers of the pool do nothing but run jobs of the list. *)
Lemma pool_map_events (max_workers : nat) (sched : list nat) (chunksize : Z)
    (jobs : list Job) :
  (1 ≤ max_workers)%nat → 1 ≤ chunksize →
  ∀ ev, ev ∈ (pool_map fn fate max_workers sched chunksize jobs).1 →
    ∃ job, job ∈ jobs ∧ ev ∈ job_events fn job.
Proof.
  intros Hw Hc ev.
  destruct (pool_map_done max_workers sched chunksize jobs Hw Hc)
    as (Hjoin & p & Hinv & Hwork & ->). simpl. intros Hev.
  destruct Hinv as [_ _ _ _ Hh].
  rewrite Forall_forall in Hh. destruct (Hh ev Hev) as (job & Hjob & Hin).
  exists job. by rewrite <- Hjoin.
Qed.

(** The caller is not left waiting: every future is completed, by its
    worker or by the breaking of the pool. *)
Lemma pool_map_defined (max_workers : nat) (sched : list nat) (chunksize : Z)
    (jobs : list Job) :
  (1 ≤ max_workers)%nat →
  (pool_map fn fate max_workers sched chunksize jobs).2 ≠ Blocked.
Proof.
  intros Hw. destruct (decide (chunksize < 1)) as [Hc|Hc].
  { unfold pool_map. by rewrite decide_True. }
  destruct (pool_map_done max_workers sched chunksize jobs Hw ltac:(lia))
    as (Hjoin & p & Hinv & Hwork & ->). simpl.
  by apply (pool_done_defined fn fate _ p).
Qed.

(** What the pool returns, when it returns, is what the serial loop
    returns. *)
Lemma pool_map_ret (max_workers : nat) (sched : list nat) (chunksize : Z)
    (jobs : list Job) xs :
  (1 ≤ max_workers)%nat →
  (pool_map fn fate max_workers sched chunksize jobs).2 = Ret xs →
  (map_jobs fn jobs).2 = Ok xs.
Proof.
  intros Hw. destruct (decide (chunksize < 1)) as [Hc|Hc].
  { unfold pool_map. by rewrite decide_True. }
  destruct (pool_map_done max_workers sched chunksize jobs Hw ltac:(lia))
    as (Hjoin & p & Hinv & Hwork & ->). simpl.
  rewrite <- Hjoin at 2. by apply (pool_done_ret fn fate _ p).
Qed.


End DispatchFacts.

(** ** The preparation of the directories *)

Lemma extends_refl w : extends w w.
Proof. exists []. by rewrite app_nil_r. Qed.

Lemma extends_trans w1 w2 w3 : extends w1 w2 → extends w2 w3 → extends w1 w3.
Proof.
  intros (t1 & H1 & Q1) (t2 & H2 & Q2). exists (t1 ++ t2). split.
  - by rewrite H2, H1, app_assoc.
  - by apply Forall_app.
Qed.

Lemma grows_refl w : grows w w.
Proof. split; [done|apply extends_refl]. Qed.

Lemma grows_trans w1 w2 w3 : grows w1 w2 → grows w2 w3 → grows w1 w3.
Proof.
  intros [D1 E1] [D2 E2]. split; [by etrans|by eapply extends_trans].
Qed.

Lemma has_leaf_grows p w w' : grows w w' → has_leaf p w → has_leaf p w'.
Proof.
  intros [Hd (t & Ht & _)] [Hp Hm]. split; [by apply Hd|].
  rewrite Ht, elem_of_app. by left.
Qed.

Section Respects.
Variable R : relation World.
Hypothesis R_refl : ∀ w, R w w.
Hypothesis R_trans : ∀ w1 w2 w3, R w1 w2 → R w2 w3 → R w1 w3.

Lemma respects_ret {A} (a : A) : respects R (ret a).
Proof. intros w. by split. Qed.

Lemma respects_raise {A} e : respects R (@raise A e).
Proof. intros w. by split. Qed.

Lemma respects_lift_res {A} (r : res A) : respects R (lift_res r).
Proof. destruct r; [apply respects_ret|apply respects_raise]. Qed.

Lemma respects_bind {A B} (m : M A) (f : A → M B) :
  respects R m → (∀ a, respects R (f a)) → respects R (bind m f).
Proof.
  intros Hm Hf w. unfold bind. destruct (Hm w) as [HR Hnb].
  destruct (m w) as [w' [a| |]]; simpl in *; [|done..].
  destruct (Hf a w') as [HR' Hnb']. split; [by eapply R_trans|done].
Qed.

Lemma respects_for_each {A} (l : list A) (body : A → M ()) :
  (∀ x, respects R (body x)) → respects R (for_each l body).
Proof.
  intros Hb. induction l as [|x l IH]; simpl.
  - apply respects_ret.
  - apply respects_bind; [apply Hb|]. by intros _.
Qed.
End Respects.

Lemma grows_bind {A B} (m : M A) (f : A → M B) :
  respects grows m → (∀ a, respects grows (f a)) → respects grows (bind m f).
Proof. apply respects_bind. exact grows_trans. Qed.

Lemma extends_bind {A B} (m : M A) (f : A → M B) :
  respects extends m → (∀ a, respects extends (f a)) → respects extends (bind m f).
Proof. apply respects_bind. exact extends_trans. Qed.

Lemma grows_for_each {A} (l : list A) (body : A → M ()) :
  (∀ x, respects grows (body x)) → respects grows (for_each l body).
Proof. apply respects_for_each; [exact grows_refl|exact grows_trans]. Qed.

Lemma respects_weaken {A} (m : M A) : respects grows m → respects extends m.
Proof. intros H w. destruct (H w) as [[_ ?] ?]. by split. Qed.

Lemma respects_emit_grows evs : Forall quiet evs → respects grows (emit evs).
Proof.
  intros Hq w. split; [|done]. split; simpl; [done|]. by exists evs.
Qed.

(** A computation that reads the world first. *)
Lemma respects_with_world {A} (R : relation World) (k : World → M A) :
  (∀ w, R w (k w w).1 ∧ (k w w).2 ≠ Blocked) → respects R (bind get_world k).
Proof. intros H w. unfold bind, get_world. simpl. apply H. Qed.

Lemma set_fs_then_emit_grows d f evs w :
  dirs w ⊆ d → Forall quiet evs →
  grows w (bind (set_fs d f) (λ _, emit evs) w).1
  ∧ (bind (set_fs d f) (λ _, emit evs) w).2 ≠ Blocked.
Proof.
  intros Hd Hq. split; [|done]. split; simpl; [done|]. by exists evs.
Qed.

Lemma set_fs_grows d f w :
  dirs w ⊆ d → grows w (set_fs d f w).1 ∧ (set_fs d f w).2 ≠ Blocked.
Proof.
  intros Hd. split; [|done]. split; simpl; [done|].
  exists []. by rewrite app_nil_r.
Qed.

Lemma set_fs_then_emit_extends d f evs w :
  Forall quiet evs →
  extends w (bind (set_fs d f) (λ _, emit evs) w).1
  ∧ (bind (set_fs d f) (λ _, emit evs) w).2 ≠ Blocked.
Proof. intros Hq. split; [|done]. by exists evs. Qed.

Lemma mkdir_parents_grows p : respects grows (mkdir_parents p).
Proof.
  unfold mkdir_parents. apply respects_with_world. intros w.
  destruct (path_exists w p); [by split; [apply grows_refl|]|].
  case_bool_decide; [by split; [apply grows_refl|]|].
  apply set_fs_then_emit_grows; [set_solver|repeat constructor].
Qed.

Lemma write_file_grows error f : respects grows (write_file error f).
Proof.
  unfold write_file. apply respects_with_world. intros w.
  destruct (error w f); [by split; [apply grows_refl|]|].
  by apply set_fs_grows.
Qed.

Lemma yaml_dump_grows error c f ext : respects grows (yaml_dump error c f ext).
Proof.
  unfold yaml_dump. apply grows_bind.
  - apply write_file_grows.
  - intros _. apply respects_emit_grows. repeat constructor.
Qed.

Lemma pickle_dump_grows error cs f ext :
  respects grows (pickle_dump error cs f ext).
Proof.
  unfold pickle_dump. apply grows_bind.
  - apply write_file_grows.
  - intros _. apply respects_emit_grows. repeat constructor.
Qed.

Lemma copyfile_grows s dst : respects grows (copyfile s dst).
Proof.
  unfold copyfile. apply grows_bind.
  - apply write_file_grows.
  - intros _. apply respects_emit_grows. repeat constructor.
Qed.

Lemma rmtree_extends p : respects extends (rmtree p).
Proof.
  unfold rmtree. apply respects_with_world. intros w.
  destruct (is_dir w p); [|by split; [apply extends_refl|]].
  apply set_fs_then_emit_extends. repeat constructor.
Qed.

Lemma rename_extends p q : respects extends (rename p q).
Proof.
  unfold rename. apply respects_with_world. intros w.
  destruct (is_dir w p).
  - case_bool_decide; [by split; [apply extends_refl|]|].
    case_bool_decide; [by split; [apply extends_refl|]|].
    apply set_fs_then_emit_extends. repeat constructor.
  - destruct (is_dir w q); [by split; [apply extends_refl|]|].
    apply set_fs_then_emit_extends. repeat constructor.
Qed.

Lemma create_log_dir_extends log_path answer :
  respects extends (create_log_dir log_path answer).
Proof.
  unfold create_log_dir. apply respects_with_world. intros w.
  destruct (path_exists w log_path); simpl.
  - revert w. change (respects extends
      (bind (emit [AskYesNo log_path]) (λ _,
         if answer
         then bind (rmtree log_path) (λ _, mkdir_parents log_path)
         else bind (lift_res (with_name log_path ("old_" +:+ name_of log_path)))
                (λ old_log_path, bind (rename log_path old_log_path)
                   (λ _, bind (mkdir_parents log_path)
                      (λ _, emit [PrintRenamed old_log_path; Input])))))).
    apply extends_bind.
    { apply respects_weaken, respects_emit_grows. repeat constructor. }
    intros _. destruct answer.
    + apply extends_bind.
      * apply rmtree_extends.
      * intros _. apply respects_weaken, mkdir_parents_grows.
    + apply extends_bind.
      { apply respects_lift_res. exact extends_refl. }
      intros old. apply extends_bind.
      { apply rename_extends. }
      intros _. apply extends_bind.
      { apply respects_weaken, mkdir_parents_grows. }
      intros _. apply respects_weaken, respects_emit_grows. repeat constructor.
  - apply (respects_weaken _ (mkdir_parents_grows log_path)).
Qed.

Lemma save_sources_grows log_path sources :
  respects grows (save_sources log_path sources).
Proof.
  unfold save_sources. apply grows_bind.
  - apply mkdir_parents_grows.
  - intros _. apply grows_for_each.
    intros s. apply copyfile_grows.
Qed.

Lemma create_subfolders_grows configs seeds log_path dump_error :
  respects grows (create_subfolders configs seeds log_path dump_error).
Proof.
  unfold create_subfolders.
  apply grows_bind.
  - apply grows_for_each.
    intros c. apply grows_bind.
    + apply grows_for_each.
      intros s. apply mkdir_parents_grows.
    + intros _. apply yaml_dump_grows.
  - intros _. apply pickle_dump_grows.
Qed.

Lemma prepare_extends configs seeds log_path answer sources dump_error :
  respects extends (prepare configs seeds log_path answer sources dump_error).
Proof.
  unfold prepare. apply extends_bind.
  - apply create_log_dir_extends.
  - intros _. apply extends_bind.
    + apply respects_weaken, save_sources_grows.
    + intros _. apply respects_weaken, create_subfolders_grows.
Qed.

Lemma bind_ret_inv {A B} (m : M A) (f : A → M B) w b :
  (bind m f w).2 = Ret b →
  ∃ a, (m w).2 = Ret a ∧ bind m f w = f a (m w).1.
Proof.
  unfold bind. destruct (m w) as [w' [a| |]]; simpl; [|done..]. eauto.
Qed.

Lemma ancestors_self (p : path) : p ≠ [] → p ∈ ancestors p.
Proof.
  induction p as [|x p IH]; [done|]. intros _. simpl.
  destruct p as [|y p]; [left|]. right.
  apply list_elem_of_fmap. exists (y :: p). split; [done|]. by apply IH.
Qed.

Lemma mkdir_parents_made p w :
  (mkdir_parents p w).2 = Ret () → has_leaf p (mkdir_parents p w).1.
Proof.
  unfold mkdir_parents, bind, get_world. simpl.
  destruct (path_exists w p) eqn:Hex; [done|].
  case_bool_decide; [done|]. simpl. intros _.
  assert (p ≠ []) as Hne.
  { intros ->. unfold path_exists in Hex. rewrite bool_decide_eq_false in Hex.
    apply Hex. by left. }
  split; simpl.
  - apply elem_of_union. right. apply elem_of_list_to_set. by apply ancestors_self.
  - rewrite elem_of_app. right. left.
Qed.

Lemma for_each_made {A} (F : A → World → Prop) (l : list A) (body : A → M ()) w :
  (∀ x, respects grows (body x)) →
  (∀ x w w', grows w w' → F x w → F x w') →
  (∀ x w, (body x w).2 = Ret () → F x (body x w).1) →
  (for_each l body w).2 = Ret () →
  ∀ x, x ∈ l → F x (for_each l body w).1.
Proof.
  intros Hbody Hstable Hmade. revert w.
  induction l as [|y l IH]; intros w Hret x Hx; [by apply elem_of_nil in Hx|].
  simpl in *. apply bind_ret_inv in Hret as Hinv. destruct Hinv as ([] & Hy & Heq).
  rewrite Heq in *. apply elem_of_cons in Hx as [->|Hx].
  - eapply Hstable; [|by apply Hmade].
    apply (grows_for_each l body Hbody).
  - by apply IH.
Qed.

Lemma create_subfolders_made configs seeds log_path dump_error w :
  (create_subfolders configs seeds log_path dump_error w).2 = Ret () →
  ∀ c s, c ∈ configs → s ∈ seeds →
    has_leaf (leaf_dir log_path (ID c) s)
             (create_subfolders configs seeds log_path dump_error w).1.
Proof.
  unfold create_subfolders. intros Hret c s Hc Hs.
  apply bind_ret_inv in Hret as Hinv. destruct Hinv as ([] & Hloop & Heq).
  rewrite Heq. eapply has_leaf_grows; [apply pickle_dump_grows|].
  revert s Hs.
  apply (for_each_made
           (λ c w, ∀ s, s ∈ seeds → has_leaf (leaf_dir log_path (ID c) s) w)
           configs _ w); [| | |done|done].
  - intros c'. apply grows_bind.
    + apply grows_for_each. intros s. apply mkdir_parents_grows.
    + intros _. apply yaml_dump_grows.
  - intros c' w1 w2 Hg Hall s Hs. eapply has_leaf_grows; [done|by apply Hall].
  - intros c' w1 Hret' s Hs.
    apply bind_ret_inv in Hret' as Hinv'. destruct Hinv' as ([] & Hseeds & Heq').
    rewrite Heq'. eapply has_leaf_grows; [apply yaml_dump_grows|].
    apply (for_each_made (λ s w, has_leaf (leaf_dir log_path (ID c') s) w)
             seeds _ w1); [| | |done|done].
    + intros s'. apply mkdir_parents_grows.
    + intros s' wa wb Hg. by apply has_leaf_grows.
    + intros s' wa. apply mkdir_parents_made.
Qed.

Lemma prepare_made configs seeds log_path answer sources dump_error w :
  (prepare configs seeds log_path answer sources dump_error w).2 = Ret () →
  ∀ c s, c ∈ configs → s ∈ seeds →
    has_leaf (leaf_dir log_path (ID c) s)
             (prepare configs seeds log_path answer sources dump_error w).1.
Proof.
  unfold prepare. intros Hret c s Hc Hs.
  apply bind_ret_inv in Hret as Hinv. destruct Hinv as ([] & _ & Heq).
  rewrite Heq in *.
  apply bind_ret_inv in Hret as Hinv. destruct Hinv as ([] & _ & Heq').
  rewrite Heq' in *. by apply create_subfolders_made.
Qed.

Lemma dispatch_events {Result} (fn : Job → Wk Result) fate max_workers chunksize
    sched jobs w :
  ∃ t, (dispatch fn fate max_workers chunksize sched jobs w).1 = after w t
     ∧ Forall (dispatch_event fn jobs) t.
Proof.
  destruct max_workers as [mw|].
  - unfold dispatch. case_decide.
    + exists []. split; [by rewrite after_nil|constructor].
    + set (n := py_min mw (Z.of_nat (length jobs))) in *.
      destruct (decide (chunksize < 1)) as [Hc|Hc].
      * exists [PoolStart n]. split.
        -- unfold pool_map. rewrite decide_True by done.
           unfold bind, emit, after. simpl. by rewrite app_nil_r.
        -- constructor; [left; eauto|constructor].
      * pose proof (pool_map_events fn fate (Z.to_nat n) sched chunksize jobs)
          as Hev.
        destruct (pool_map fn fate (Z.to_nat n) sched chunksize jobs) as [t o].
        exists (PoolStart n :: t). split.
        -- unfold bind, emit, after. simpl. by rewrite <- app_assoc.
        -- constructor; [left; eauto|]. apply Forall_forall. intros ev Hin.
           right. apply Hev; [lia|lia|done].
  - rewrite dispatch_serial. eexists. split; [done|].
    apply Forall_forall. intros ev Hin. right. by apply map_jobs_events.
Qed.

(** Pooled dispatch ends as the pool's constructor or [map] does. *)
Lemma dispatch_pool_outcome {Result} (fn : Job → Wk Result) fate mw chunksize
    sched jobs w :
  (dispatch fn fate (Some mw) chunksize sched jobs w).2
  = if decide (py_min mw (Z.of_nat (length jobs)) ≤ 0) then Raise ValueError
    else (pool_map fn fate (Z.to_nat (py_min mw (Z.of_nat (length jobs))))
                   sched chunksize jobs).2.
Proof.
  unfold dispatch. case_decide; [done|].
  by destruct (pool_map fn fate _ sched chunksize jobs) as [t o].
Qed.




Section OrchestratorFacts.
Context {Result : Type}.
Variable run : Config → Seed → Device → path → res Result.
Variable configs : list Config.
Variable seeds : list Seed.
Variable log_path : path.
Variable max_workers : option Z.
Variable chunksize : Z.
Variable use_gpu : bool.
Variable gpu_ids : option (list Z).
Variable num_gpu : Z.
Variable answer : bool.
Variable sources : list string.
Variable sched : list nat.
Variable dump_error : World → path → option Exn.
Variable fate : res (list Result) → Fate.

Let fn := _run run log_path use_gpu gpu_ids num_gpu.
Let jobs := make_jobs configs seeds.
Let experiment :=
  run_experiment run configs seeds log_path max_workers chunksize use_gpu
                 gpu_ids num_gpu answer sources sched dump_error fate.
Let prep := prepare configs seeds log_path answer sources dump_error.

(** The preparation fails and nothing else happens, or it succeeds and
    the dispatch follows. *)
Lemma run_experiment_cases w :
  (∃ e, (prep w).2 = Raise e ∧ experiment w = ((prep w).1, Raise e))
  ∨ ((prep w).2 = Ret ()
     ∧ (experiment w).2 = (dispatch fn fate max_workers chunksize sched jobs (prep w).1).2
     ∧ dirs (experiment w).1 = dirs (prep w).1
     ∧ ∃ t, trace (experiment w).1 = trace (prep w).1 ++ t
          ∧ Forall (λ ev, dispatch_event fn jobs ev
                          ∨ ev = PrintFinished log_path) t).
Proof.
  assert (experiment w
          = match prep w with
            | (w1, Ret _) =>
                bind (dispatch fn fate max_workers chunksize sched jobs)
                     (λ results, bind (emit [PrintFinished log_path])
                                      (λ _, ret results)) w1
            | (w1, Raise e) => (w1, Raise e)
            | (w1, Blocked) => (w1, Blocked)
            end) as -> by reflexivity.
  destruct (prepare_extends configs seeds log_path answer sources dump_error w)
    as [_ Hnb].
  fold prep in Hnb.
  destruct (prep w) as [w1 [[]|e|]] eqn:Hp;
    simpl in *; [right|left; by exists e|done].
  split; [done|].
  destruct (dispatch_events fn fate max_workers chunksize sched jobs w1) as (t & Ht & Hev).
  unfold bind.
  destruct (dispatch fn fate max_workers chunksize sched jobs w1) as [w2 [xs|e|]];
    simpl in *; subst w2; (split; [done|]); (split; [done|]).
  - exists (t ++ [PrintFinished log_path]). split; [by rewrite app_assoc|].
    apply Forall_app. split.
    + eapply Forall_impl; [done|]. by left.
    + constructor; [by right|constructor].
  - exists t. split; [done|]. eapply Forall_impl; [done|]. by left.
  - exists t. split; [done|]. eapply Forall_impl; [done|]. by left.
Qed.
End OrchestratorFacts.

(** ** The orchestrator *)

Lemma map_jobs_results {Result} (fn : Job → Wk Result) jobs xs :
  (map_jobs fn jobs).2 = Ok xs → Forall2 (λ job x, (fn job).2 = Ok x) jobs xs.
Proof.
  revert xs. induction jobs as [|job jobs IH]; intros xs; simpl.
  - intros [= <-]. constructor.
  - destruct (fn job) as [t [x|e]] eqn:Hfn; [|done].
    destruct (map_jobs fn jobs) as [t' [xs'|e]]; simpl in *; [|done].
    intros [= <-]. constructor; [by rewrite Hfn|by apply IH].
Qed.


Lemma quiet_prefix (t1 t pre post : list Event) ev :
  Forall quiet t1 → ¬ quiet ev → t1 ++ t = pre ++ ev :: post →
  ∃ r, pre = t1 ++ r.
Proof.
  intros Hq Hev. revert pre. induction Hq as [|x t1 Hx Hq IH]; intros pre Heq.
  - by exists pre.
  - destruct pre as [|y pre]; simpl in Heq.
    + injection Heq as -> _. done.
    + injection Heq as -> Heq. destruct (IH _ Heq) as [r ->]. by exists r.
Qed.


Lemma dispatch_never_blocks {Result} (fn : Job → Wk Result) fate max_workers
    chunksize sched jobs w :
  (dispatch fn fate max_workers chunksize sched jobs w).2 ≠ Blocked.
Proof.
  destruct max_workers as [mw|].
  - rewrite dispatch_pool_outcome. case_decide; [done|].
    apply pool_map_defined. lia.
  - rewrite dispatch_serial. simpl. by destruct (map_jobs fn jobs).2.
Qed.



(** What pooled dispatch returns, when it returns, is what serial dispatch
    returns. *)
Lemma dispatch_pool_ret {Result} (fn : Job → Wk Result) fate max_workers
    chunksize sched jobs w xs :
  (dispatch fn fate (Some max_workers) chunksize sched jobs w).2 = Ret xs →
  (map_jobs fn jobs).2 = Ok xs.
Proof.
  rewrite dispatch_pool_outcome. case_decide; [done|].
  apply pool_map_ret. lia.
Qed.





(** Results that do not pickle: the serial loop returns them, the pool
    raises what the worker met when it tried to send them. *)
Lemma results_must_pickle :
  let fn := _run sample_run ["logs"] false None 0 in
  let jobs := make_jobs [cfg0; cfg1] [1; 3] in
  (dispatch fn opaque_results None 1 [1; 0]%nat jobs fresh).2 = Ret [1; 3; 11; 13]
  ∧ (dispatch fn opaque_results (Some 2) 1 [1; 0]%nat jobs fresh).2
    = Raise (Raised "PicklingError").
Proof. split; vm_compute; reflexivity. Qed.

(** An exception of the run function that does not unpickle: the serial
    loop raises it, the pool breaks and raises BrokenProcessPool. *)
Lemma exceptions_must_unpickle :
  let fn := _run sample_run ["logs"] false None 0 in
  let jobs := make_jobs [cfg0; cfg1] [1; 2] in
  (dispatch fn fragile None 1 [1; 0]%nat jobs fresh).2 = Raise (Raised "seed 2")
  ∧ (dispatch fn fragile (Some 2) 1 [1; 0]%nat jobs fresh).2
    = Raise BrokenProcessPool.
Proof. split; vm_compute; reflexivity. Qed.


(** Claim C4. Whenever a run function is called, in serial or pooled mode,
    every leaf directory root/<config_id>/<seed> has been made before that
    call, and it exists. *)
Theorem C4_leaf_dirs_before_jobs {Result}
    (run : Config → Seed → Device → path → res Result)
    (configs : list Config) (seeds : list Seed) (log_path : path)
    (max_workers : option Z) (chunksize : Z) (use_gpu : bool)
    (gpu_ids : option (list Z)) (num_gpu : Z)
    (answer : bool) (sources : list string) (sched : list nat)
    (dump_error : World → path → option Exn)
    (fate : res (list Result) → Fate) (d f : gset path) :
  let r := run_experiment run configs seeds log_path max_workers chunksize
             use_gpu gpu_ids num_gpu answer sources sched dump_error fate
             (mkWorld d f []) in
  ∀ pre j c s dev l post,
    trace r.1 = pre ++ InJob j (CallRun c s dev l) :: post →
    ∀ c' s', c' ∈ configs → s' ∈ seeds →
      Mkdir (leaf_dir log_path (ID c') s') ∈ pre
      ∧ leaf_dir log_path (ID c') s'
        ∈ dirs (prepare configs seeds log_path answer sources dump_error
                        (mkWorld d f [])).1
      ∧ leaf_dir log_path (ID c') s' ∈ dirs r.1.
Proof.
  intros r pre j c s dev l post Htrace c' s' Hc' Hs'.
  set (w := mkWorld d f []) in *.
  destruct (prepare_extends configs seeds log_path answer sources dump_error w)
    as [(t1 & Ht1 & Hq1) _]. simpl in Ht1.
  destruct (run_experiment_cases run configs seeds log_path max_workers chunksize
              use_gpu gpu_ids num_gpu answer sources sched dump_error fate w)
    as [(e & Hp & Heq)|(Hp & Hout & Hdirs & t & Ht & Hev)];
    [fold r in Heq|fold r in Hout, Hdirs, Ht].
  - exfalso. rewrite Heq in Htrace. simpl in Htrace. rewrite Ht1 in Htrace.
    rewrite Forall_forall in Hq1.
    apply (Hq1 (InJob j (CallRun c s dev l))). rewrite Htrace.
    rewrite elem_of_app. right. left.
  - destruct (prepare_made configs seeds log_path answer sources dump_error w Hp
                c' s' Hc' Hs')
      as [Hdir Hmk].
    rewrite Ht, Ht1 in Htrace.
    destruct (quiet_prefix t1 t pre post (InJob j (CallRun c s dev l)) Hq1
                (λ H, H) Htrace) as [r' ->].
    split_and!.
    + rewrite elem_of_app. left. by rewrite <- Ht1.
    + done.
    + by rewrite Hdirs.
Qed.

(** ** The claims at concrete inputs *)

Lemma C1_witness :
  make_jobs [cfg0; cfg1] [1; 2] !! 3%nat = Some (3, (cfg1, 2)).
Proof.
  exact (proj1 (proj2 (proj2 (C1_job_enumeration [cfg0; cfg1] [1; 2])))
           1%nat 1%nat cfg1 2 eq_refl eq_refl).
Defined.

Lemma C5_witness :
  ∃ d, [2; 3] !! Z.to_nat (3 `mod` Z.of_nat (length [2; 3])) = Some d
     ∧ d ∈ [2; 3]
     ∧ device_for true (Some [2; 3]) 4 3
       = ([DeviceCount; SetDevice d], Ok (cuda d))
     ∧ device_for true (Some [2; 3]) 4 (3 + Z.of_nat (length [2; 3]))
       = device_for true (Some [2; 3]) 4 3.
Proof.
  apply C5_round_robin_subset;
    [discriminate | repeat (constructor; [lia|]); constructor | lia].
Defined.

Lemma C6_witness :
  device_for true None 4 5
  = ([DeviceCount; SetDevice (5 `mod` 4)], Ok (cuda (5 `mod` 4)))
  ∧ 0 ≤ 5 `mod` 4 < 4.
Proof. apply C6_round_robin_all; lia. Defined.

Lemma C7_witness :
  let fn := _run sample_run ["logs"] false None 0 in
  let jobs := make_jobs [cfg0; cfg1] [1; 2] in
  let ran := mjoin (job_events fn <$> take 2 jobs) in
  dispatch fn plain None 1 [] jobs fresh = (after fresh ran, Raise (Raised "seed 2"))
  ∧ ∀ id a, InJob id a ∈ ran → 0 ≤ id ≤ 1.
Proof.
  intros fn jobs ran.
  apply (proj2 (C7_serial_fail_fast sample_run ["logs"] false None 0
                  [cfg0; cfg1] [1; 2] plain 1 [] fresh) 1%nat (1, (cfg0, 2))).
  - reflexivity.
  - intros job' Hin. vm_compute in Hin.
    apply list_elem_of_singleton in Hin. rewrite Hin. eexists. reflexivity.
  - reflexivity.
Defined.

Lemma C8_witness :
  let jobs := make_jobs [] [1; 3] in
  let fn := _run sample_run ["logs"] false None 0 in
  jobs = []
  ∧ py_min 2 (Z.of_nat (length jobs)) ≤ 0
  ∧ (0 ≤ 2 → py_min 2 (Z.of_nat (length jobs)) = 0)
  ∧ dispatch fn plain (Some 2) 1 [] jobs fresh = (fresh, Raise ValueError)
  ∧ dispatch fn plain None 1 [] jobs fresh = (fresh, Ret []).
Proof.
  apply (C8_empty_job_list (_run sample_run ["logs"] false None 0) plain 2 1 []
           [] [1; 3] fresh).
  left. reflexivity.
Defined.

Lemma C10_witness :
  let ok := _run sample_run ["logs"] true None 4 (0, (cfg0, 1)) in
  let bad := _run sample_run ["logs"] true None 4 (1, (cfg0, 2)) in
  EmptyCache ∈ ok.1 ∧ bad.2 = Err (Raised "seed 2") ∧ EmptyCache ∉ bad.1.
Proof.
  intros ok bad. split.
  - apply (proj1 (C10_cache_cleanup sample_run ["logs"] true None 4 0 cfg0 1)).
    split; [reflexivity|]. exists (cuda 0), 1. split; [|reflexivity].
    vm_compute. repeat first [apply list_elem_of_here | apply list_elem_of_further].
  - apply (proj1 (proj2 (C10_cache_cleanup sample_run ["logs"] true None 4 1 cfg0 2))
             (cuda 1)).
    + vm_compute. repeat first [apply list_elem_of_here | apply list_elem_of_further].
    + reflexivity.
Defined.



Lemma C4_witness :
  Mkdir (leaf_dir ["logs"] (ID cfg0) 1)
    ∈ [Mkdir ["logs"]; Mkdir ["logs"; "source_files"]; Mkdir ["logs"; "0"; "1"];
       YamlDump cfg0 ["logs"; "0"; "config.yml"];
       PickleDump [cfg0] ["logs"; "configs.pkl"];
       InJob 0 (SetNumThreads 1); InJob 0 (PrintJob 0 1 cpu 0);
       InJob 0 (PrintItems [("lr", "0.1")])]
  ∧ leaf_dir ["logs"] (ID cfg0) 1
    ∈ dirs (prepare [cfg0] [1] ["logs"] true [] open_error fresh).1
  ∧ leaf_dir ["logs"] (ID cfg0) 1
    ∈ dirs (run_experiment sample_run [cfg0] [1] ["logs"] None 1 false None 0
              true [] [] open_error plain fresh).1.
Proof.
  apply (C4_leaf_dirs_before_jobs sample_run [cfg0] [1] ["logs"] None 1 false
           None 0 true [] [] open_error plain ∅ ∅ _ 0 cfg0 1 cpu ["logs"; "0"; "1"]
           [PrintFinished ["logs"]]).
  - vm_compute. reflexivity.
  - apply list_elem_of_here.
  - apply list_elem_of_here.
Defined.

(** * Further properties *)

(** ** More on the device allocator *)

Lemma py_index_in_range {A} (l : list A) (i : Z) :
  0 ≤ i < Z.of_nat (length l) → ∃ x, py_index l i = Ok x ∧ x ∈ l.
Proof.
  intros Hi. destruct (lookup_lt_is_Some_2 l (Z.to_nat i)) as [x Hx]; [lia|].
  exists x. split; [apply py_index_nat; [lia|done]|].
  by eapply list_elem_of_lookup_2.
Qed.

Lemma in_range_or_bad (ids : list Z) k :
  forallb (λ i, (i >=? 0) && (i <? k)) ids = false
  ↔ Exists (λ i, i < 0 ∨ k ≤ i) ids.
Proof.
  split.
  - intros Hf. induction ids as [|i ids IH]; [done|]. simpl in Hf.
    apply andb_false_iff in Hf as [Hi|Hf].
    + apply Exists_cons_hd. apply andb_false_iff in Hi as [Hi|Hi]; lia.
    + apply Exists_cons_tl. by apply IH.
  - intros Hbad. destruct (forallb _ ids) eqn:Hall; [|done].
    apply in_range_forallb in Hall. rewrite Forall_forall in Hall.
    apply Exists_exists in Hbad as (i & Hin & Hi). apply Hall in Hin. lia.
Qed.

(** What the allocator does in accelerator mode, case by case. *)
Lemma device_for_cases (gpu_ids : option (list Z)) (k job_id : Z) :
  0 ≤ k →
  ((gpu_ids = None ∧ k = 0 ∨ gpu_ids = Some [])
   ∧ (device_for true gpu_ids k job_id).2 = Err ZeroDivisionError)
  ∨ ((∃ ids, gpu_ids = Some ids ∧ Exists (λ i, i < 0 ∨ k ≤ i) ids)
     ∧ (device_for true gpu_ids k job_id).2 = Err AssertionError)
  ∨ (¬ (gpu_ids = None ∧ k = 0 ∨ gpu_ids = Some [])
     ∧ (∀ ids, gpu_ids = Some ids → Forall (λ i, 0 ≤ i < k) ids)
     ∧ ∃ i, (device_for true gpu_ids k job_id).2 = Ok (cuda i) ∧ 0 ≤ i < k).
Proof.
  intros Hk. unfold device_for, device_id_for. destruct gpu_ids as [ids|].
  - destruct (forallb _ ids) eqn:Hall; simpl.
    + apply in_range_forallb in Hall. destruct ids as [|i0 ids].
      * left. split; [by right|done].
      * right; right. split; [intros [[? _]|?]; done|].
        split; [by intros ? [= <-]|].
        rewrite py_mod_pos by (simpl; lia).
        destruct (py_index_in_range (i0 :: ids)
                    (job_id `mod` Z.of_nat (length (i0 :: ids)))) as (i & -> & Hin).
        { apply Z.mod_pos_bound. simpl. lia. }
        rewrite Forall_forall in Hall. apply Hall in Hin. simpl.
        exists i. split; [|done]. unfold cuda_device. by rewrite decide_True.
    + right; left. split; [|done]. exists ids. split; [done|].
      by apply in_range_or_bad.
  - unfold py_mod. case_decide as Hk0; simpl.
    + left. split; [by left|done].
    + right; right. split; [intros [[_ ?]|?]; done|]. split; [done|].
      assert (0 ≤ job_id `mod` k < k) by (apply Z.mod_pos_bound; lia).
      exists (job_id `mod` k). split; [|done]. unfold cuda_device.
      by rewrite decide_True.
Qed.

(** Property X1. The device allocator never lets an index run out of range:
    for any job id, negative ones included, it raises nothing but
    ZeroDivisionError, when there is no device to choose from (no device
    detected, or an empty [gpu_ids]), and AssertionError, when an entry of
    [gpu_ids] is out of range; otherwise it returns a CUDA device whose index
    lies in [0, num_gpu). *)
Theorem device_for_outcomes (gpu_ids : option (list Z)) (k job_id : Z) :
  0 ≤ k →
  let r := (device_for true gpu_ids k job_id).2 in
  (r = Err ZeroDivisionError ↔ (gpu_ids = None ∧ k = 0) ∨ gpu_ids = Some [])
  ∧ (r = Err AssertionError
     ↔ ∃ ids, gpu_ids = Some ids ∧ Exists (λ i, i < 0 ∨ k ≤ i) ids)
  ∧ (∀ e, r = Err e → e = ZeroDivisionError ∨ e = AssertionError)
  ∧ (∀ d, r = Ok d → ∃ i, d = cuda i ∧ 0 ≤ i < k).
Proof.
  intros Hk r. subst r.
  destruct (device_for_cases gpu_ids k job_id Hk)
    as [[Hz ->]|[[(ids & -> & Hbad) ->]|(Hnz & Hok & i & -> & Hi)]].
  - split_and!.
    + by split.
    + split; [done|]. intros (ids & -> & Hbad).
      destruct Hz as [[? _]|[= ->]]; [done|]. by apply Exists_nil in Hbad.
    + intros e [= <-]. by left.
    + done.
  - split_and!.
    + split; [done|]. intros [[? _]|[= ->]]; [done|]. by apply Exists_nil in Hbad.
    + split; [by eauto|done].
    + intros e [= <-]. by right.
    + done.
  - split_and!.
    + split; [done|]. intros Hz. by destruct Hnz.
    + split; [done|]. intros (ids & -> & Hbad).
      specialize (Hok ids eq_refl). rewrite Forall_forall in Hok.
      apply Exists_exists in Hbad as (j & Hin & Hj). apply Hok in Hin. lia.
    + done.
    + intros d [= <-]. eauto.
Qed.

(** *** Round robin is balanced *)

(** Among [0 .. n-1], how many are [p] modulo [m]. *)
Lemma count_mod_step (m p N : Z) :
  0 < m → 0 ≤ p < m → 0 ≤ N →
  (N + 1) `div` m + (if decide (p < (N + 1) `mod` m) then 1 else 0)
  = N `div` m + (if decide (p < N `mod` m) then 1 else 0)
    + (if decide (N `mod` m = p) then 1 else 0).
Proof.
  intros Hm Hp HN.
  pose proof (Z.div_mod N m ltac:(lia)) as Hdm.
  pose proof (Z.mod_pos_bound N m Hm) as Hr.
  set (q := N `div` m) in *. set (r := N `mod` m) in *.
  destruct (decide (r + 1 < m)) as [Hlt|Hge].
  - assert ((N + 1) `div` m = q) as ->
      by (symmetry; apply (Z.div_unique _ _ _ (r + 1)); lia).
    assert ((N + 1) `mod` m = r + 1) as ->
      by (symmetry; apply (Z.mod_unique _ _ q); lia).
    repeat case_decide; lia.
  - assert ((N + 1) `div` m = q + 1) as ->
      by (symmetry; apply (Z.div_unique _ _ _ 0); lia).
    assert ((N + 1) `mod` m = 0) as ->
      by (symmetry; apply (Z.mod_unique _ _ (q + 1)); lia).
    repeat case_decide; lia.
Qed.

Lemma count_mod (m p : Z) (n : nat) :
  0 < m → 0 ≤ p < m →
  Z.of_nat (length (filter (λ j, j `mod` m = p) (Z.of_nat <$> seq 0 n)))
  = Z.of_nat n `div` m + (if decide (p < Z.of_nat n `mod` m) then 1 else 0).
Proof.
  intros Hm Hp. induction n as [|n IH].
  - simpl. rewrite Z.div_0_l, Z.mod_0_l by lia. case_decide; lia.
  - rewrite seq_S, fmap_app, filter_app, length_app. simpl seq. simpl fmap.
    replace (Z.of_nat (S n)) with (Z.of_nat n + 1) by lia.
    rewrite count_mod_step by lia. rewrite Nat2Z.inj_add, IH.
    rewrite filter_cons. case_decide; case_decide; simpl; try lia; done.
Qed.

Lemma load_all_devices (k d : Z) (n : nat) :
  0 < k →
  load None k n d
  = length (filter (λ j, j `mod` k = d) (Z.of_nat <$> seq 0 n)).
Proof.
  intros Hk. unfold load. f_equal. apply list_filter_iff. intros j.
  unfold device_id_for. rewrite py_mod_pos by done. naive_solver.
Qed.

(** Property X2. With [gpu_ids] unset, round robin over k >= 1 devices is
    balanced: of the first n jobs, device d gets floor(n/k) of them and one
    more if d < n mod k; so the loads of two devices differ by at most one,
    and a device outside [0, k) gets none. *)
Theorem round_robin_balanced (k d : Z) (n : nat) :
  0 < k →
  (0 ≤ d < k →
   Z.of_nat (load None k n d)
   = Z.of_nat n `div` k + (if decide (d < Z.of_nat n `mod` k) then 1 else 0))
  ∧ (∀ d', 0 ≤ d < k → 0 ≤ d' < k →
       (load None k n d ≤ load None k n d' + 1)%nat)
  ∧ (¬ 0 ≤ d < k → load None k n d = 0%nat).
Proof.
  intros Hk. split_and!.
  - intros Hd. rewrite load_all_devices by done. by apply count_mod.
  - intros d' Hd Hd'.
    pose proof (count_mod k d n Hk Hd) as H1.
    pose proof (count_mod k d' n Hk Hd') as H2.
    rewrite <- load_all_devices in H1, H2 by done.
    repeat case_decide; lia.
  - intros Hd. rewrite load_all_devices by done.
    apply length_zero_iff_nil, elem_of_nil_inv.
    intros j [Hj _]%list_elem_of_filter.
    pose proof (Z.mod_pos_bound j k Hk). lia.
Qed.

(** Property X3. With a valid [gpu_ids] without repetition, round robin over
    the subset is balanced in the same way: of the first n jobs, the device at
    position p of [gpu_ids] gets floor(n/len) of them and one more if p < n
    mod len; a device that is not in [gpu_ids] gets none. *)
Theorem round_robin_subset_balanced (ids : list Z) (k d : Z) (n p : nat) :
  Forall (λ i, 0 ≤ i < k) ids → NoDup ids →
  let m := Z.of_nat (length ids) in
  (ids !! p = Some d →
   Z.of_nat (load (Some ids) k n d)
   = Z.of_nat n `div` m
     + (if decide (Z.of_nat p < Z.of_nat n `mod` m) then 1 else 0))
  ∧ (d ∉ ids → load (Some ids) k n d = 0%nat).
Proof.
  intros Hall Hnd m. split.
  - intros Hp. assert (p < length ids)%nat by (by eapply lookup_lt_Some).
    assert (ids ≠ []) as Hne by (intros ->; simpl in *; lia).
    rewrite <- (count_mod m (Z.of_nat p) n) by (subst m; lia).
    unfold load. do 2 f_equal. apply list_filter_iff. intros j.
    destruct (device_id_for_ids ids k j Hne Hall) as (d' & Hd' & ->).
    fold m in Hd'. pose proof (Z.mod_pos_bound j m ltac:(subst m; lia)).
    split.
    + intros [= ->]. pose proof (NoDup_lookup _ _ _ _ Hnd Hd' Hp). lia.
    + intros Hj. rewrite Hj, Nat2Z.id in Hd'. congruence.
  - intros Hd. unfold load. apply length_zero_iff_nil, elem_of_nil_inv.
    intros j [Hj _]%list_elem_of_filter. destruct ids as [|i0 ids'] eqn:Hids.
    + discriminate Hj.
    + destruct (device_id_for_ids (i0 :: ids') k j ltac:(done) Hall)
        as (d' & Hd' & Hdev).
      rewrite Hdev in Hj. injection Hj as ->.
      apply Hd. by eapply list_elem_of_lookup_2.
Qed.

(** *** Every job has a log directory of its own *)

Lemma leaf_dir_inj (log_path : path) (ID ID' : Z) (seed seed' : Seed) :
  leaf_dir log_path ID seed = leaf_dir log_path ID' seed' →
  ID = ID' ∧ seed = seed'.
Proof.
  unfold leaf_dir. intros Heq%app_inv_head. injection Heq as H1 H2.
  split; by apply (inj pretty).
Qed.

Lemma NoDup_product {A B} (xs : list A) (ys : list B) :
  NoDup xs → NoDup ys → NoDup (product xs ys).
Proof.
  intros Hx Hy. induction Hx as [|x xs Hnotin Hx IH].
  - constructor.
  - rewrite product_cons. apply NoDup_app. split_and!.
    + apply NoDup_fmap_2; [|done]. by intros y y' [= ->].
    + intros [x' y] (y' & [= -> ->] & _)%list_elem_of_fmap Hin.
      apply Hnotin. unfold product in Hin.
      apply list_elem_of_bind in Hin as (x'' & Hin & Hx'').
      apply list_elem_of_bind in Hin as (y'' & Hin & _).
      apply list_elem_of_singleton in Hin. by simplify_eq.
    + done.
Qed.

Lemma product_fmap_l {A A' B} (f : A → A') (xs : list A) (ys : list B) :
  product (f <$> xs) ys = (λ xy, (f xy.1, xy.2)) <$> product xs ys.
Proof.
  induction xs as [|x xs IH]; [done|].
  rewrite fmap_cons, !product_cons, fmap_app, IH. f_equal.
  rewrite <- list_fmap_compose. by apply list_fmap_ext.
Qed.

Lemma enumerate_from_snd {A} (l : list A) start :
  (enumerate_from start l).*2 = l.
Proof.
  revert start. induction l as [|x l IH]; intros start; [done|].
  simpl. by rewrite IH.
Qed.

(** The log directories of the jobs, in the order of the jobs. *)
Lemma job_log_dirs (log_path : path) configs seeds :
  (λ job : Job, leaf_dir log_path (ID job.2.1) job.2.2) <$> make_jobs configs seeds
  = (λ cs : Config * Seed, leaf_dir log_path (ID cs.1) cs.2) <$> product configs seeds.
Proof.
  unfold make_jobs, enumerate.
  rewrite <- (enumerate_from_snd (product configs seeds) 0) at 2.
  by rewrite <- list_fmap_compose.
Qed.

(** Property X4. When the IDs of the configurations are pairwise distinct and
    so are the seeds, no two jobs are given the same log directory. *)
Theorem job_log_dirs_distinct (log_path : path) (configs : list Config)
    (seeds : list Seed) :
  NoDup (ID <$> configs) → NoDup seeds →
  NoDup ((λ job : Job, leaf_dir log_path (ID job.2.1) job.2.2)
           <$> make_jobs configs seeds).
Proof.
  intros Hids Hseeds. rewrite job_log_dirs.
  pose proof (NoDup_product _ _ Hids Hseeds) as Hnd.
  rewrite product_fmap_l in Hnd.
  replace ((λ cs : Config * Seed, leaf_dir log_path (ID cs.1) cs.2)
             <$> product configs seeds)
    with ((λ p : Z * Z, leaf_dir log_path p.1 p.2)
            <$> ((λ cs : Config * Seed, (ID cs.1, cs.2)) <$> product configs seeds))
    by (by rewrite <- list_fmap_compose).
  apply NoDup_fmap_2_strong; [|done].
  intros [i s] [i' s'] _ _ Heq. simpl in Heq.
  by apply leaf_dir_inj in Heq as [-> ->].
Qed.

(** ** More on the dispatch *)

Lemma _run_ok_inv {Result} (run : Config → Seed → Device → path → res Result)
    log_path use_gpu gpu_ids k job_id c s x :
  (_run run log_path use_gpu gpu_ids k (job_id, (c, s))).2 = Ok x →
  ∃ d, (device_for use_gpu gpu_ids k job_id).2 = Ok d
     ∧ run c s d (leaf_dir log_path (ID c) s) = Ok x.
Proof.
  destruct (device_for use_gpu gpu_ids k job_id) as [td [d|e]] eqn:Hdev.
  - rewrite (_run_device_ok _ _ _ _ _ _ _ _ _ _ Hdev). simpl. eauto.
  - by rewrite (_run_device_err _ _ _ _ _ _ _ _ _ _ Hdev).
Qed.

Lemma dispatch_ret_inv {Result} (fn : Job → Wk Result) fate max_workers
    chunksize sched jobs w xs :
  (dispatch fn fate max_workers chunksize sched jobs w).2 = Ret xs →
  (map_jobs fn jobs).2 = Ok xs.
Proof.
  destruct max_workers as [mw|].
  - apply dispatch_pool_ret.
  - rewrite dispatch_serial. simpl.
    destruct (map_jobs fn jobs).2; simpl; congruence.
Qed.

(** Property X5. When [run_experiment] returns, in either mode, it returns one
    result per (configuration, seed) pair, and the result at position i*m+j is
    what the run function returned for configuration i and seed j, called with
    the device allocated to job i*m+j and with that pair's own log directory.
    *)
Theorem results_by_index {Result}
    (run : Config → Seed → Device → path → res Result)
    (configs : list Config) (seeds : list Seed) (log_path : path)
    (max_workers : option Z) (chunksize : Z) (use_gpu : bool)
    (gpu_ids : option (list Z)) (num_gpu : Z)
    (answer : bool) (sources : list string) (sched : list nat)
    (dump_error : World → path → option Exn)
    (fate : res (list Result) → Fate) (w : World) (xs : list Result) :
  (run_experiment run configs seeds log_path max_workers chunksize use_gpu
                  gpu_ids num_gpu answer sources sched dump_error fate w).2
  = Ret xs →
  let m := length seeds in
  length xs = (length configs * m)%nat
  ∧ ∀ (i j : nat) c s, configs !! i = Some c → seeds !! j = Some s →
      ∃ d x, xs !! (i * m + j)%nat = Some x
           ∧ (device_for use_gpu gpu_ids num_gpu (Z.of_nat (i * m + j))).2 = Ok d
           ∧ run c s d (leaf_dir log_path (ID c) s) = Ok x.
Proof.
  intros Hret m. subst m.
  destruct (run_experiment_cases run configs seeds log_path max_workers chunksize
              use_gpu gpu_ids num_gpu answer sources sched dump_error fate w)
    as [(e & Hp & Heq)|(Hp & Hout & _)].
  { rewrite Heq in Hret. discriminate Hret. }
  rewrite Hout in Hret. apply dispatch_ret_inv, map_jobs_results in Hret.
  split.
  - rewrite <- (Forall2_length _ _ _ Hret).
    unfold make_jobs, enumerate. by rewrite length_enumerate_from, length_product.
  - intros i j c s Hc Hs.
    assert (make_jobs configs seeds !! (i * length seeds + j)%nat
            = Some (Z.of_nat (i * length seeds + j), (c, s))) as Hjob.
    { unfold make_jobs, enumerate. rewrite enumerate_from_lookup.
      by rewrite (product_lookup _ _ _ _ _ _ Hc Hs). }
    destruct (Forall2_lookup_l _ _ _ _ _ Hret Hjob) as (x & Hx & Hrun).
    apply _run_ok_inv in Hrun as (d & Hd & Hrun). eauto.
Qed.



(** Property X7. Pooled mode refuses its arguments before any job runs: with
    max_workers <= 0 or an empty job list the pool is not even started, with
    chunksize < 1 it is started and [map] refuses; in each case the dispatch
    raises ValueError and no job has done anything. *)
Theorem pool_arguments_refused {Result} (fn : Job → Wk Result)
    (fate : res (list Result) → Fate)
    (jobs : list Job) (max_workers chunksize : Z) (sched : list nat) (w : World) :
  max_workers ≤ 0 ∨ jobs = [] ∨ chunksize < 1 →
  let n := py_min max_workers (Z.of_nat (length jobs)) in
  dispatch fn fate (Some max_workers) chunksize sched jobs w
  = (after w (if decide (n ≤ 0) then [] else [PoolStart n]), Raise ValueError)
  ∧ (n ≤ 0 ↔ max_workers ≤ 0 ∨ jobs = []).
Proof.
  intros Hbad n.
  assert (n ≤ 0 ↔ max_workers ≤ 0 ∨ jobs = []) as Hn.
  { subst n. unfold py_min. destruct jobs as [|job jobs]; simpl length.
    - case_decide; split; auto; lia.
    - case_decide; split; try lia; intros [?|?]; done || lia. }
  split; [|done]. unfold dispatch. fold n. case_decide.
  - by rewrite after_nil.
  - assert (chunksize < 1) by (destruct Hbad as [?|[?|?]]; [| |done]; tauto).
    unfold pool_map. rewrite decide_True by done.
    unfold bind, emit, after. simpl. by rewrite app_nil_r.
Qed.

(** *** The pool is bounded, and runs every job once *)

Section PoolMore.
Context {Result : Type}.
Variable fn : Job → Wk Result.
Variable fate : res (list Result) → Fate.






Lemma pool_todo_fill w (p : Pool Result) :
  pool_todo (pool_fill w p) = pool_todo p.
Proof.
  unfold pool_todo, pool_fill. simpl.
  rewrite fmap_app, join_app, <- list_fmap_compose, <- app_assoc. f_equal.
  rewrite <- (take_drop (w - length (running p)) (pending p)) at 3.
  rewrite fmap_app, join_app. f_equal.
Qed.

Lemma running_middle (p : Pool Result) i s :
  running p !! i = Some s →
  pool_todo p
  ≡ₚ todo s ++ mjoin (todo <$> delete i (running p))
       ++ mjoin ((λ item, item.2) <$> pending p).
Proof.
  intros Hi. unfold pool_todo. rewrite app_assoc.
  apply Permutation_app_tail.
  rewrite <- (take_drop_middle _ _ _ Hi) at 1.
  rewrite delete_take_drop, !fmap_app, fmap_cons, !join_app. simpl.
  rewrite !app_assoc. apply Permutation_app_tail, Permutation_app_comm.
Qed.

Lemma running_updated (p : Pool Result) i s s' :
  running p !! i = Some s →
  mjoin (todo <$> <[i := s']> (running p))
  ≡ₚ todo s' ++ mjoin (todo <$> delete i (running p)).
Proof.
  intros Hi. assert (i < length (running p))%nat by (by eapply lookup_lt_Some).
  rewrite insert_take_drop, delete_take_drop by done.
  rewrite !fmap_app, fmap_cons, !join_app. simpl.
  rewrite !app_assoc. apply Permutation_app_tail, Permutation_app_comm.
Qed.

Lemma job_trace_app l1 l2 :
  job_trace fn (l1 ++ l2) = job_trace fn l1 ++ job_trace fn l2.
Proof. unfold job_trace. by rewrite fmap_app, join_app. Qed.

Lemma job_trace_perm l1 l2 : l1 ≡ₚ l2 → job_trace fn l1 ≡ₚ job_trace fn l2.
Proof. unfold job_trace. by intros ->. Qed.

Lemma all_return_perm l1 l2 : l1 ≡ₚ l2 → all_return fn l1 → all_return fn l2.
Proof. intros Hp Hall job Hin. apply Hall. by rewrite Hp. Qed.

Lemma pool_step_broken w n (p : Pool Result) :
  broken p → broken (pool_step fn fate w n p).
Proof.
  intros (Hpend & Hrun & Hfut). unfold pool_step, pool_fill.
  rewrite Hpend, Hrun. simpl. rewrite take_nil, drop_nil. simpl.
  by split_and!.
Qed.

Lemma complete_once i s ys (p : Pool Result) total :
  running p !! i = Some s → todo s = [] →
  all_return fn (pool_todo p) →
  happened p ++ job_trace fn (pool_todo p) ≡ₚ total →
  (all_return fn (pool_todo (complete fate i s (Ok ys) [] p))
   ∧ happened (complete fate i s (Ok ys) [] p)
       ++ job_trace fn (pool_todo (complete fate i s (Ok ys) [] p)) ≡ₚ total)
  ∨ broken (complete fate i s (Ok ys) [] p).
Proof.
  intros Hi Htodo Hall Hperm. pose proof (running_middle p i s Hi) as Hmid.
  rewrite Htodo in Hmid. simpl in Hmid.
  unfold complete. destruct (deliver fate (Ok ys)) as [r|].
  - left.
    assert (pool_todo p ≡ₚ pool_todo
              (mkPool (pending p) (delete i (running p))
                      (<[future s := r]> (futures p)) (happened p ++ [])))
      as Hsame by exact Hmid.
    split; [by eapply all_return_perm|]. simpl. rewrite app_nil_r.
    by rewrite <- (job_trace_perm _ _ Hsame).
  - right. unfold break_pool, broken. simpl. split_and!; [done|done|].
    exists (future s). rewrite break_lookup. rewrite decide_True; [done|].
    apply elem_of_app. left. apply list_elem_of_fmap. exists s.
    split; [done|]. by eapply list_elem_of_lookup_2.
Qed.

Lemma slot_step_once i s (p : Pool Result) total :
  running p !! i = Some s →
  all_return fn (pool_todo p) →
  happened p ++ job_trace fn (pool_todo p) ≡ₚ total →
  (all_return fn (pool_todo (slot_step fn fate i s p))
   ∧ happened (slot_step fn fate i s p)
       ++ job_trace fn (pool_todo (slot_step fn fate i s p)) ≡ₚ total)
  ∨ broken (slot_step fn fate i s p).
Proof.
  intros Hi Hall Hperm. pose proof (running_middle p i s Hi) as Hmid.
  unfold slot_step. destruct (todo s) as [|job rest] eqn:Htodo.
  - by apply complete_once.
  - left. destruct (Hall job) as [x Hx]; [rewrite Hmid; left|].
    destruct (fn job) as [t r] eqn:Hfn. simpl in Hx. subst r.
    set (s' := mkSlot (future s) rest (acc s ++ [x])).
    assert (pool_todo p ≡ₚ job :: pool_todo
              (mkPool (pending p) (<[i := s']> (running p)) (futures p)
                      (happened p ++ tag job t))) as Hnext.
    { rewrite Hmid. unfold pool_todo at 1. simpl.
      rewrite (running_updated p i s s' Hi). simpl.
      by rewrite <- app_assoc. }
    split.
    + intros job' Hin. apply Hall. rewrite Hnext. by right.
    + simpl. rewrite <- Hperm, (job_trace_perm _ _ Hnext).
      change (job :: ?l) with ([job] ++ l). rewrite job_trace_app.
      unfold job_trace at 2. simpl. rewrite app_nil_r.
      unfold job_events. rewrite Hfn. simpl. by rewrite <- app_assoc.
Qed.

Lemma pool_run_broken w steps sched (p : Pool Result) :
  broken p → broken (pool_run fn fate w steps sched p).
Proof.
  revert sched p. induction steps as [|steps IH]; intros sched p Hb; [done|].
  simpl. by apply IH, pool_step_broken.
Qed.

Lemma pool_run_once w steps sched (p : Pool Result) total :
  all_return fn (pool_todo p) →
  happened p ++ job_trace fn (pool_todo p) ≡ₚ total →
  happened (pool_run fn fate w steps sched p)
    ++ job_trace fn (pool_todo (pool_run fn fate w steps sched p)) ≡ₚ total
  ∨ broken (pool_run fn fate w steps sched p).
Proof.
  revert sched p. induction steps as [|steps IH]; intros sched p Hall Hperm;
    [by left|].
  simpl. unfold pool_step.
  assert (all_return fn (pool_todo (pool_fill w p))
          ∧ happened (pool_fill w p)
              ++ job_trace fn (pool_todo (pool_fill w p)) ≡ₚ total)
    as [Hall' Hperm'] by (by rewrite pool_todo_fill).
  destruct (running (pool_fill w p) !! _) as [s|] eqn:Hs.
  - destruct (slot_step_once _ s _ total Hs Hall' Hperm') as [[? ?]|Hb].
    + by apply IH.
    + right. by apply pool_run_broken.
  - by apply IH.
Qed.

(** A list that is drained holds a list of results in each future. *)
Lemma drain_ret_ok (fs : gmap nat (res (list Result))) (ids : list nat) xs :
  drain fs ids = Ret xs → ∀ i, i ∈ ids → ∃ ys, fs !! i = Some (Ok ys).
Proof.
  revert xs. induction ids as [|j ids IH]; intros xs Hret i Hi.
  { by apply elem_of_nil in Hi. }
  simpl in Hret. destruct (fs !! j) as [[ys|e]|] eqn:Hj; [|done..].
  destruct (drain fs ids) as [zs| |] eqn:Hd; [|done..].
  apply elem_of_cons in Hi as [->|Hi]; [eauto|]. by eapply IH.
Qed.

Lemma imap_items (g : nat → nat) (cs : list (list Job)) :
  (λ item : nat * list Job, item.2) <$> imap (λ i c, (g i, c)) cs = cs.
Proof.
  revert g. induction cs as [|c cs IH]; intros g; [done|].
  rewrite imap_cons, fmap_cons. simpl. f_equal. apply (IH (λ i, g (S i))).
Qed.

Lemma pool_todo_start (chunks : list (list Job)) :
  pool_todo (pool_start (Result := Result) chunks) = mjoin chunks.
Proof.
  unfold pool_todo, pool_start. simpl. f_equal. apply (imap_items (λ i, i)).
Qed.

Lemma pool_todo_done (p : Pool Result) : pool_work p = 0%nat → pool_todo p = [].
Proof.
  unfold pool_work. intros Hwork.
  assert (pending p = []) as Hpend
    by (apply (sum_list_with_zero (λ item, S (length item.2))); [intros; lia|lia]).
  assert (running p = []) as Hrun
    by (apply (sum_list_with_zero (λ s, S (length (todo s)))); [intros; lia|lia]).
  unfold pool_todo. by rewrite Hpend, Hrun.
Qed.

(** Property X10. When pooled dispatch returns, every job has run exactly
    once: what the workers did is, up to the order, what serial dispatch does.
    *)
Theorem pooled_runs_each_job_once (max_workers chunksize : Z)
    (sched : list nat) (jobs : list Job) (w : World) (xs : list Result) :
  (dispatch fn fate (Some max_workers) chunksize sched jobs w).2 = Ret xs →
  let n := py_min max_workers (Z.of_nat (length jobs)) in
  ∃ t, (dispatch fn fate (Some max_workers) chunksize sched jobs w).1
       = after w (PoolStart n :: t)
     ∧ t ≡ₚ (map_jobs fn jobs).1.
Proof.
  intros Hret n.
  pose proof (dispatch_ret_inv _ _ _ _ _ _ _ _ Hret) as Hok.
  rewrite dispatch_pool_outcome in Hret. fold n in Hret.
  destruct (decide (n ≤ 0)); [done|].
  assert (¬ chunksize < 1) as Hc.
  { intros Hc. unfold pool_map in Hret. by rewrite decide_True in Hret. }
  assert (all_return fn jobs) as Hall.
  { intros job Hin. apply map_jobs_results in Hok.
    apply list_elem_of_lookup_1 in Hin as [i Hi].
    destruct (Forall2_lookup_l _ _ _ _ _ Hok Hi) as (x & _ & Hx). eauto. }
  destruct (map_jobs_all_ok fn jobs Hall) as (xs' & Hser & _).
  unfold dispatch. fold n. rewrite decide_False by done.
  unfold pool_map in *. rewrite decide_False in * by done.
  set (chunks := get_chunks (Z.to_nat chunksize) jobs) in *.
  assert (mjoin chunks = jobs) as Hjoin by (apply join_get_chunks; lia).
  change (mkPool (imap (λ i c, (i, c)) chunks) [] ∅ [])
    with (pool_start (Result := Result) chunks) in *.
  set (p := pool_run fn fate (Z.to_nat n) (pool_fuel chunks) sched
              (pool_start chunks)) in *.
  destruct (pool_run_done fn fate chunks (Z.to_nat n) (pool_fuel chunks) sched
              (pool_start chunks) ltac:(lia) (pool_start_inv fn fate chunks))
    as [Hinv Hwork].
  { unfold pool_start. by rewrite pool_start_work. }
  fold p in Hinv, Hwork. simpl in Hret.
  pose proof (pool_run_once (Z.to_nat n) (pool_fuel chunks) sched
                (pool_start chunks) (job_trace fn jobs)) as Honce.
  rewrite pool_todo_start, Hjoin in Honce.
  specialize (Honce Hall (reflexivity _)). fold p in Honce.
  destruct Honce as [Honce|(_ & _ & i & Hi)].
  - rewrite (pool_todo_done _ Hwork) in Honce. unfold job_trace at 1 in Honce.
    simpl in Honce. rewrite app_nil_r in Honce.
    eexists. split.
    + unfold bind, emit, after. simpl. by rewrite <- app_assoc.
    + rewrite Hser. simpl. exact Honce.
  - exfalso. destruct Hinv as [_ _ Hf _ _].
    destruct (Hf i _ Hi) as (c & Hc' & _).
    destruct (drain_ret_ok _ _ _ Hret i) as [ys Hys]; [|congruence].
    apply elem_of_seq. apply lookup_lt_Some in Hc'. lia.
Qed.
End PoolMore.

(** ** More on the preparation of the directories *)

Lemma extends_by_refl P w : extends_by P w w.
Proof. exists []. by rewrite app_nil_r. Qed.

Lemma extends_by_trans P w1 w2 w3 :
  extends_by P w1 w2 → extends_by P w2 w3 → extends_by P w1 w3.
Proof.
  intros (t1 & H1 & Q1) (t2 & H2 & Q2). exists (t1 ++ t2). split.
  - by rewrite H2, H1, app_assoc.
  - by apply Forall_app.
Qed.

Lemma extends_by_impl (P Q : Event → Prop) w w' :
  (∀ ev, P ev → Q ev) → extends_by P w w' → extends_by Q w w'.
Proof.
  intros HPQ (t & Ht & HP). exists t. split; [done|].
  by eapply Forall_impl.
Qed.

Section ExtendsBy.
Variable P : Event → Prop.

Lemma by_bind {A B} (m : M A) (f : A → M B) :
  respects (extends_by P) m → (∀ a, respects (extends_by P) (f a)) →
  respects (extends_by P) (bind m f).
Proof. apply respects_bind. exact (extends_by_trans P). Qed.

Lemma by_for_each {A} (l : list A) (body : A → M ()) :
  (∀ x, respects (extends_by P) (body x)) →
  respects (extends_by P) (for_each l body).
Proof.
  apply respects_for_each;
    [exact (extends_by_refl P)|exact (extends_by_trans P)].
Qed.

Lemma by_raise {A} e : respects (extends_by P) (@raise A e).
Proof. apply respects_raise. exact (extends_by_refl P). Qed.

Lemma by_emit evs : Forall P evs → respects (extends_by P) (emit evs).
Proof. intros HP w. split; [|done]. by exists evs. Qed.

Lemma by_set_fs_emit d f evs w :
  Forall P evs →
  extends_by P w (bind (set_fs d f) (λ _, emit evs) w).1
  ∧ (bind (set_fs d f) (λ _, emit evs) w).2 ≠ Blocked.
Proof. intros HP. split; [|done]. by exists evs. Qed.

Lemma by_mkdir_parents p : P (Mkdir p) → respects (extends_by P) (mkdir_parents p).
Proof.
  intros HP. unfold mkdir_parents. apply respects_with_world. intros w.
  destruct (path_exists w p); [by split; [apply extends_by_refl|]|].
  case_bool_decide; [by split; [apply extends_by_refl|]|].
  apply by_set_fs_emit. by constructor.
Qed.

Lemma by_write_file error f : respects (extends_by P) (write_file error f).
Proof.
  unfold write_file. apply respects_with_world. intros w.
  destruct (error w f); [by split; [apply extends_by_refl|]|].
  split; [|done]. simpl. exists []. by rewrite app_nil_r.
Qed.

Lemma by_rmtree p : P (Rmtree p) → respects (extends_by P) (rmtree p).
Proof.
  intros HP. unfold rmtree. apply respects_with_world. intros w.
  destruct (is_dir w p); [|by split; [apply extends_by_refl|]].
  apply by_set_fs_emit. by constructor.
Qed.

Lemma by_rename p q : P (Rename p q) → respects (extends_by P) (rename p q).
Proof.
  intros HP. unfold rename. apply respects_with_world. intros w.
  destruct (is_dir w p).
  - case_bool_decide; [by split; [apply extends_by_refl|]|].
    case_bool_decide; [by split; [apply extends_by_refl|]|].
    apply by_set_fs_emit. by constructor.
  - destruct (is_dir w q); [by split; [apply extends_by_refl|]|].
    apply by_set_fs_emit. by constructor.
Qed.

Hypothesis P_silent : ∀ ev, silent_event ev → P ev.

Lemma by_save_sources log_path sources :
  respects (extends_by P) (save_sources log_path sources).
Proof.
  unfold save_sources. apply by_bind.
  - by apply by_mkdir_parents, P_silent.
  - intros _. apply by_for_each. intros s. unfold copyfile.
    apply by_bind; [apply by_write_file|].
    intros _. apply by_emit. constructor; [by apply P_silent|constructor].
Qed.

Lemma by_create_subfolders configs seeds log_path dump_error :
  respects (extends_by P) (create_subfolders configs seeds log_path dump_error).
Proof.
  unfold create_subfolders. apply by_bind.
  - apply by_for_each. intros c. apply by_bind.
    + apply by_for_each. intros s. by apply by_mkdir_parents, P_silent.
    + intros _. unfold yaml_dump. apply by_bind; [apply by_write_file|].
      intros _. apply by_emit. constructor; [by apply P_silent|constructor].
  - intros _. unfold pickle_dump. apply by_bind; [apply by_write_file|].
    intros _. apply by_emit. constructor; [by apply P_silent|constructor].
Qed.
End ExtendsBy.

Lemma silent_setup ev : silent_event ev → setup_event ev.
Proof. by destruct ev. Qed.

Lemma create_log_dir_setup log_path answer :
  respects (extends_by setup_event) (create_log_dir log_path answer).
Proof.
  unfold create_log_dir. apply respects_with_world. intros w.
  destruct (path_exists w log_path); simpl.
  - revert w. change (respects (extends_by setup_event)
      (bind (emit [AskYesNo log_path]) (λ _,
         if answer
         then bind (rmtree log_path) (λ _, mkdir_parents log_path)
         else bind (lift_res (with_name log_path ("old_" +:+ name_of log_path)))
                (λ old_log_path, bind (rename log_path old_log_path)
                   (λ _, bind (mkdir_parents log_path)
                      (λ _, emit [PrintRenamed old_log_path; Input])))))).
    apply by_bind; [apply by_emit; by repeat constructor|].
    intros _. destruct answer.
    + apply by_bind; [by apply by_rmtree|]. intros _. by apply by_mkdir_parents.
    + apply by_bind.
      { apply respects_lift_res. exact (extends_by_refl _). }
      intros old. apply by_bind; [by apply by_rename|].
      intros _. apply by_bind; [by apply by_mkdir_parents|].
      intros _. apply by_emit. by repeat constructor.
  - by apply by_mkdir_parents.
Qed.

Lemma prepare_setup configs seeds log_path answer sources dump_error :
  respects (extends_by setup_event)
           (prepare configs seeds log_path answer sources dump_error).
Proof.
  unfold prepare. apply by_bind; [apply create_log_dir_setup|].
  intros _. apply by_bind.
  - apply by_save_sources, silent_setup.
  - intros _. apply by_create_subfolders, silent_setup.
Qed.

Lemma bind_from {A B} (R : relation World) (m : M A) (f : A → M B) w :
  (∀ w1 w2 w3, R w1 w2 → R w2 w3 → R w1 w3) →
  R w (m w).1 → (∀ a, respects R (f a)) → R w (bind m f w).1.
Proof.
  intros Htrans Hm Hf. unfold bind.
  destruct (m w) as [w' [a| |]]; simpl in *; [|done..].
  destruct (Hf a w') as [HR _]. by eapply Htrans.
Qed.

Lemma create_log_dir_fresh log_path answer w :
  path_exists w log_path = false →
  create_log_dir log_path answer w = mkdir_parents log_path w.
Proof. intros Hex. unfold create_log_dir, bind, get_world. simpl. by rewrite Hex. Qed.

Lemma create_log_dir_existing log_path answer w :
  path_exists w log_path = true →
  create_log_dir log_path answer w
  = (if answer
     then bind (rmtree log_path) (λ _, mkdir_parents log_path)
     else bind (lift_res (with_name log_path ("old_" +:+ name_of log_path)))
            (λ old_log_path, bind (rename log_path old_log_path)
               (λ _, bind (mkdir_parents log_path)
                  (λ _, emit [PrintRenamed old_log_path; Input]))))
      (after w [AskYesNo log_path]).
Proof. intros Hex. unfold create_log_dir, bind, get_world. simpl. by rewrite Hex. Qed.

Lemma prepare_fresh configs seeds log_path answer sources dump_error w :
  path_exists w log_path = false →
  extends_by silent_event w
    (prepare configs seeds log_path answer sources dump_error w).1.
Proof.
  intros Hex. unfold prepare. apply bind_from; [exact (extends_by_trans _)|..].
  - rewrite create_log_dir_fresh by done.
    by apply (by_mkdir_parents silent_event log_path).
  - intros _. apply by_bind; [by apply by_save_sources|].
    intros _. by apply by_create_subfolders.
Qed.

Lemma prepare_existing configs seeds log_path answer sources dump_error w :
  path_exists w log_path = true →
  ∃ t, trace (prepare configs seeds log_path answer sources dump_error w).1
       = trace w ++ AskYesNo log_path :: t.
Proof.
  intros Hex.
  assert (extends_by setup_event (after w [AskYesNo log_path])
            (prepare configs seeds log_path answer sources dump_error w).1)
    as (t & Ht & _).
  { unfold prepare. unfold bind at 1. rewrite create_log_dir_existing by done.
    set (w1 := after w [AskYesNo log_path]).
    set (rest := λ _ : (), bind (save_sources log_path sources)
                   (λ _, create_subfolders configs seeds log_path dump_error)).
    assert (∀ u, respects (extends_by setup_event) (rest u)) as Hrest.
    { intros u. apply by_bind.
      - apply by_save_sources, silent_setup.
      - intros _. apply by_create_subfolders, silent_setup. }
    set (k := if answer then _ else _).
    assert (respects (extends_by setup_event) k) as Hk.
    { subst k. destruct answer.
      - apply by_bind; [by apply by_rmtree|]. intros _. by apply by_mkdir_parents.
      - apply by_bind.
        { apply respects_lift_res. exact (extends_by_refl _). }
        intros old. apply by_bind; [by apply by_rename|].
        intros _. apply by_bind; [by apply by_mkdir_parents|].
        intros _. apply by_emit. by repeat constructor. }
    destruct (Hk w1) as [Hk1 _]. destruct (k w1) as [w2 [[]| |]]; simpl in *;
      try done.
    destruct (Hrest () w2) as [H2 _]. by eapply extends_by_trans. }
  exists t. rewrite Ht. simpl. by rewrite <- app_assoc.
Qed.

Section OrchestratorTrace.
Context {Result : Type}.
Variable run : Config → Seed → Device → path → res Result.
Variable configs : list Config.
Variable seeds : list Seed.
Variable log_path : path.
Variable max_workers : option Z.
Variable chunksize : Z.
Variable use_gpu : bool.
Variable gpu_ids : option (list Z).
Variable num_gpu : Z.
Variable answer : bool.
Variable sources : list string.
Variable sched : list nat.
Variable dump_error : World → path → option Exn.
Variable fate : res (list Result) → Fate.

Let fn := _run run log_path use_gpu gpu_ids num_gpu.
Let jobs := make_jobs configs seeds.
Let experiment :=
  run_experiment run configs seeds log_path max_workers chunksize use_gpu
                 gpu_ids num_gpu answer sources sched dump_error fate.
Let prep := prepare configs seeds log_path answer sources dump_error.

(** The trace and the file system of a whole run: the preparation, then
    the events of the dispatch, then the closing message if and only if
    the dispatch returned. *)
Lemma run_experiment_trace w :
  ∃ t, Forall (dispatch_event fn jobs) t
     ∧ trace (experiment w).1
       = trace (prep w).1 ++ t
           ++ (match (experiment w).2 with
               | Ret _ => [PrintFinished log_path]
               | _ => []
               end)
     ∧ dirs (experiment w).1 = dirs (prep w).1
     ∧ files (experiment w).1 = files (prep w).1
     ∧ ((prep w).2 ≠ Ret () → t = []).
Proof.
  assert (experiment w
          = match prep w with
            | (w1, Ret _) =>
                bind (dispatch fn fate max_workers chunksize sched jobs)
                     (λ results, bind (emit [PrintFinished log_path])
                                      (λ _, ret results)) w1
            | (w1, Raise e) => (w1, Raise e)
            | (w1, Blocked) => (w1, Blocked)
            end) as -> by reflexivity.
  destruct (prep w) as [w1 [[]|e|]] eqn:Hp; simpl.
  - destruct (dispatch_events fn fate max_workers chunksize sched jobs w1)
      as (t & Ht & Hev).
    exists t. split; [done|]. unfold bind.
    destruct (dispatch fn fate max_workers chunksize sched jobs w1) as [w2 [xs|e|]];
      simpl in *; subst w2; simpl; rewrite ?app_nil_r, ?app_assoc; done.
  - exists []. by rewrite !app_nil_r.
  - exists []. by rewrite !app_nil_r.
Qed.
End OrchestratorTrace.

Lemma dispatch_event_kind {Result} (fn : Job → Wk Result) jobs ev :
  dispatch_event fn jobs ev → (∃ n, ev = PoolStart n) ∨ ∃ j a, ev = InJob j a.
Proof.
  intros [?|(job & _ & Hin)]; [by left|]. right.
  unfold job_events, tag in Hin.
  apply list_elem_of_fmap in Hin as (a & -> & _). eauto.
Qed.

(** Property X11. The closing message is printed if and only if
    [run_experiment] returns; it is then the last thing that happens and is
    printed once. When the preparation or a job raises, it is not printed. *)
Theorem finished_message_iff_returns {Result}
    (run : Config → Seed → Device → path → res Result)
    (configs : list Config) (seeds : list Seed) (log_path : path)
    (max_workers : option Z) (chunksize : Z) (use_gpu : bool)
    (gpu_ids : option (list Z)) (num_gpu : Z)
    (answer : bool) (sources : list string) (sched : list nat)
    (dump_error : World → path → option Exn)
    (fate : res (list Result) → Fate) (d f : gset path) :
  let r := run_experiment run configs seeds log_path max_workers chunksize
             use_gpu gpu_ids num_gpu answer sources sched dump_error fate
             (mkWorld d f []) in
  ((∃ p, PrintFinished p ∈ trace r.1) ↔ ∃ xs, r.2 = Ret xs)
  ∧ (∀ xs, r.2 = Ret xs →
       ∃ t, trace r.1 = t ++ [PrintFinished log_path]
          ∧ ∀ p, PrintFinished p ∉ t).
Proof.
  intros r. set (w := mkWorld d f []) in *.
  destruct (prepare_setup configs seeds log_path answer sources dump_error w)
    as [(t1 & Ht1 & Hq1) _]. simpl in Ht1.
  destruct (run_experiment_trace run configs seeds log_path max_workers chunksize
              use_gpu gpu_ids num_gpu answer sources sched dump_error fate w)
    as (t & Hev & Ht & _). fold r in Ht. rewrite Ht1 in Ht.
  assert (∀ p, PrintFinished p ∉ t1 ++ t) as Hnone.
  { intros p [Hin|Hin]%elem_of_app.
    - rewrite Forall_forall in Hq1. by apply Hq1 in Hin.
    - rewrite Forall_forall in Hev.
      apply Hev, dispatch_event_kind in Hin as [[? ?]|(? & ? & ?)]; done. }
  split.
  - split.
    + intros [p Hin]. rewrite Ht in Hin. destruct r.2 as [xs| |]; [by eauto|..];
        rewrite app_nil_r in Hin; by apply Hnone in Hin.
    + intros [xs Hxs]. exists log_path. rewrite Ht, Hxs, app_assoc.
      rewrite elem_of_app. right. left.
  - intros xs Hxs. exists (t1 ++ t). split; [|done].
    by rewrite Ht, Hxs, app_assoc.
Qed.

(** Property X12. The operator is involved exactly when the logging directory
    already exists: if it does not, the run asks nothing, removes nothing and
    renames nothing; if it does, the very first thing that happens is the
    yes/no question about it. *)
Theorem operator_asked_iff_exists {Result}
    (run : Config → Seed → Device → path → res Result)
    (configs : list Config) (seeds : list Seed) (log_path : path)
    (max_workers : option Z) (chunksize : Z) (use_gpu : bool)
    (gpu_ids : option (list Z)) (num_gpu : Z)
    (answer : bool) (sources : list string) (sched : list nat)
    (dump_error : World → path → option Exn)
    (fate : res (list Result) → Fate) (d f : gset path) :
  let w := mkWorld d f [] in
  let r := run_experiment run configs seeds log_path max_workers chunksize
             use_gpu gpu_ids num_gpu answer sources sched dump_error fate w in
  (path_exists w log_path = false → ∀ ev, ev ∈ trace r.1 → ¬ operator_event ev)
  ∧ (path_exists w log_path = true →
     ∃ t, trace r.1 = AskYesNo log_path :: t).
Proof.
  intros w r.
  destruct (run_experiment_trace run configs seeds log_path max_workers chunksize
              use_gpu gpu_ids num_gpu answer sources sched dump_error fate w)
    as (t & Hev & Ht & _). fold r in Ht.
  split.
  - intros Hex ev Hin Hop.
    destruct (prepare_fresh configs seeds log_path answer sources dump_error w Hex)
      as (t1 & Ht1 & Hq1). simpl in Ht1.
    rewrite Ht, Ht1, !elem_of_app in Hin. destruct Hin as [Hin|[Hin|Hin]].
    + rewrite Forall_forall in Hq1. apply Hq1 in Hin. by destruct ev.
    + rewrite Forall_forall in Hev.
      apply Hev, dispatch_event_kind in Hin as [[? ->]|(? & ? & ->)]; done.
    + destruct r.2; [apply list_elem_of_singleton in Hin as ->; done|..];
        by apply elem_of_nil in Hin.
  - intros Hex.
    destruct (prepare_existing configs seeds log_path answer sources dump_error w Hex)
      as (t1 & Ht1). simpl in Ht1. rewrite Ht, Ht1. simpl. eauto.
Qed.

(** ** What the preparation keeps *)

Lemma keeps_refl x w : keeps x w w.
Proof. by split. Qed.

Lemma keeps_trans x w1 w2 w3 : keeps x w1 w2 → keeps x w2 w3 → keeps x w1 w3.
Proof. intros [Hd1 Hf1] [Hd2 Hf2]. split; auto. Qed.

Lemma keeps_bind {A B} x (m : M A) (f : A → M B) :
  respects (keeps x) m → (∀ a, respects (keeps x) (f a)) →
  respects (keeps x) (bind m f).
Proof. apply respects_bind. exact (keeps_trans x). Qed.

Lemma keeps_for_each {A} x (l : list A) (body : A → M ()) :
  (∀ y, respects (keeps x) (body y)) → respects (keeps x) (for_each l body).
Proof.
  apply respects_for_each; [exact (keeps_refl x)|exact (keeps_trans x)].
Qed.

Lemma keeps_emit x evs : respects (keeps x) (emit evs).
Proof. intros w. by split. Qed.

Lemma keeps_mkdir_parents x p : respects (keeps x) (mkdir_parents p).
Proof.
  unfold mkdir_parents. apply respects_with_world. intros w.
  destruct (path_exists w p); [by split|].
  case_bool_decide; [by split|].
  split; [|done]. split; simpl; set_solver.
Qed.

Lemma keeps_write_file x error f : respects (keeps x) (write_file error f).
Proof.
  unfold write_file. apply respects_with_world. intros w.
  destruct (error w f); [by split|].
  split; [|done]. split; simpl; set_solver.
Qed.

Lemma keeps_rmtree (x p : path) : ¬ p `prefix_of` x → respects (keeps x) (rmtree p).
Proof.
  intros Hx. unfold rmtree. apply respects_with_world. intros w.
  destruct (is_dir w p); [|by split].
  split; [|done]. split; simpl; intros Hin; by apply elem_of_filter.
Qed.

Lemma moved_keeps (x p q : path) (s : gset path) :
  ¬ p `prefix_of` x → ¬ q `prefix_of` x → x ∈ s → x ∈ moved p q s.
Proof.
  intros Hp Hq Hin. unfold moved. apply elem_of_union. right.
  by apply elem_of_filter.
Qed.

Lemma keeps_rename (x p q : path) :
  ¬ p `prefix_of` x → ¬ q `prefix_of` x → respects (keeps x) (rename p q).
Proof.
  intros Hp Hq. unfold rename. apply respects_with_world. intros w.
  destruct (is_dir w p).
  - case_bool_decide; [by split|]. case_bool_decide; [by split|].
    split; [|done]. split; simpl; by apply moved_keeps.
  - destruct (is_dir w q); [by split|].
    split; [|done]. split; simpl; [done|by apply moved_keeps].
Qed.

Lemma keeps_create_log_dir x log_path answer :
  ¬ log_path `prefix_of` x → ¬ backup_path log_path `prefix_of` x →
  respects (keeps x) (create_log_dir log_path answer).
Proof.
  intros Hp Hq. unfold create_log_dir. apply respects_with_world. intros w.
  destruct (path_exists w log_path); simpl; [|apply keeps_mkdir_parents].
  apply keeps_bind; [apply keeps_emit|]. intros _. destruct answer.
  - apply keeps_bind; [by apply keeps_rmtree|]. intros _. apply keeps_mkdir_parents.
  - unfold with_name. destruct log_path as [|c l] eqn:Hl.
    { by split. }
    rewrite <- Hl in *. simpl. unfold bind at 1. simpl.
    apply keeps_bind; [by apply keeps_rename|]. intros _.
    apply keeps_bind; [apply keeps_mkdir_parents|]. intros _. apply keeps_emit.
Qed.

Lemma keeps_save_sources x log_path sources :
  respects (keeps x) (save_sources log_path sources).
Proof.
  unfold save_sources. apply keeps_bind; [apply keeps_mkdir_parents|].
  intros _. apply keeps_for_each. intros s. unfold copyfile.
  apply keeps_bind; [apply keeps_write_file|]. intros _. apply keeps_emit.
Qed.

Lemma keeps_create_subfolders x configs seeds log_path dump_error :
  respects (keeps x) (create_subfolders configs seeds log_path dump_error).
Proof.
  unfold create_subfolders. apply keeps_bind.
  - apply keeps_for_each. intros c. apply keeps_bind.
    + apply keeps_for_each. intros s. apply keeps_mkdir_parents.
    + intros _. unfold yaml_dump.
      apply keeps_bind; [apply keeps_write_file|]. intros _. apply keeps_emit.
  - intros _. unfold pickle_dump.
    apply keeps_bind; [apply keeps_write_file|]. intros _. apply keeps_emit.
Qed.

(** Property X13. The preparation touches only the logging directory and its
    backup: a directory or file that lies neither under [log_path] nor under
    [old_<name>] next to it is still there afterwards, however the preparation
    ends. *)
Theorem prepare_keeps_outside (configs : list Config) (seeds : list Seed)
    (log_path : path) (answer : bool) (sources : list string)
    (dump_error : World → path → option Exn) (w : World) (x : path) :
  ¬ log_path `prefix_of` x →
  ¬ backup_path log_path `prefix_of` x →
  keeps x w (prepare configs seeds log_path answer sources dump_error w).1.
Proof.
  intros Hp Hq. unfold prepare.
  apply (keeps_bind x); [by apply keeps_create_log_dir|].
  intros _. apply keeps_bind; [apply keeps_save_sources|].
  intros _. apply keeps_create_subfolders.
Qed.

(** ** Log directories that coincide *)

Lemma mkdir_parents_new p w :
  (mkdir_parents p w).2 = Ret () → (p ∉ dirs w) ∧ p ∈ dirs (mkdir_parents p w).1.
Proof.
  intros Hret. split; [|by apply mkdir_parents_made].
  revert Hret. unfold mkdir_parents, bind, get_world. simpl.
  destruct (path_exists w p) eqn:Hex; [done|]. intros _.
  unfold path_exists in Hex. rewrite bool_decide_eq_false in Hex. tauto.
Qed.

Lemma for_each_fresh {A} (K : A → list path) (l : list A) (body : A → M ()) :
  (∀ x, respects grows (body x)) →
  (∀ x w, (body x w).2 = Ret () →
     NoDup (K x) ∧ (∀ p, p ∈ K x → (p ∉ dirs w) ∧ p ∈ dirs (body x w).1)) →
  ∀ w, (for_each l body w).2 = Ret () →
    NoDup (mjoin (K <$> l))
    ∧ (∀ p, p ∈ mjoin (K <$> l) → (p ∉ dirs w) ∧ p ∈ dirs (for_each l body w).1).
Proof.
  intros Hgrows Hbody. induction l as [|x l IH]; intros w Hret; simpl.
  { split; [constructor|]. intros p Hp. by apply elem_of_nil in Hp. }
  simpl in Hret. apply bind_ret_inv in Hret as Hinv.
  destruct Hinv as ([] & Hx & Heq). rewrite Heq in *.
  destruct (Hbody x w Hx) as [Hnd Hnew].
  destruct (IH _ Hret) as [Hnd' Hnew'].
  destruct (Hgrows x w) as [[Hsub _] _].
  destruct (grows_for_each l body Hgrows (body x w).1) as [[Hsub' _] _].
  split.
  - apply NoDup_app. split_and!; [done| |done].
    intros p Hp Hp'. apply Hnew in Hp as [_ Hp]. apply Hnew' in Hp' as [Hp' _]. done.
  - intros p [Hp|Hp]%elem_of_app.
    + apply Hnew in Hp as [? ?]. split; [done|]. by apply Hsub'.
    + apply Hnew' in Hp as [Hn ?]. split; [|done]. intros Hin. by apply Hn, Hsub.
Qed.

Lemma product_leaves (log_path : path) (configs : list Config) (seeds : list Seed) :
  (λ cs : Config * Seed, leaf_dir log_path (ID cs.1) cs.2) <$> product configs seeds
  = mjoin ((λ c, (λ s, leaf_dir log_path (ID c) s) <$> seeds) <$> configs).
Proof.
  unfold product. induction configs as [|c configs IH]; [done|].
  simpl. rewrite fmap_app. f_equal; [|exact IH].
  clear IH. induction seeds as [|s seeds IH]; [done|]. simpl. f_equal. exact IH.
Qed.

Lemma create_subfolders_distinct configs seeds log_path dump_error w :
  (create_subfolders configs seeds log_path dump_error w).2 = Ret () →
  NoDup ((λ job : Job, leaf_dir log_path (ID job.2.1) job.2.2)
           <$> make_jobs configs seeds).
Proof.
  intros Hret. rewrite job_log_dirs, product_leaves.
  unfold create_subfolders in Hret.
  apply bind_ret_inv in Hret as ([] & Hloop & _).
  eapply for_each_fresh; [| |exact Hloop].
  - intros c. apply grows_bind.
    + apply grows_for_each. intros s. apply mkdir_parents_grows.
    + intros _. apply yaml_dump_grows.
  - intros c w1 Hc. apply bind_ret_inv in Hc as Hinv.
    destruct Hinv as ([] & Hseeds & Heq). rewrite Heq.
    destruct (yaml_dump_grows dump_error c (log_path ++ [pretty (ID c); "config"])
                ".yml" (for_each seeds
                   (λ seed, mkdir_parents (log_path ++ [pretty (ID c); pretty seed]))
                   w1).1) as [[Hsub _] _].
    pose proof (for_each_fresh (λ s, [leaf_dir log_path (ID c) s]) seeds
                  (λ seed, mkdir_parents (log_path ++ [pretty (ID c); pretty seed])))
      as Hin.
    destruct (Hin (λ s, mkdir_parents_grows _)) with (w := w1) as [Hnd Hnew];
      [|done|].
    { intros s w2 Hs. split; [apply NoDup_singleton|].
      intros p ->%list_elem_of_singleton. by apply mkdir_parents_new. }
    assert (mjoin ((λ s, [leaf_dir log_path (ID c) s]) <$> seeds)
            = (λ s, leaf_dir log_path (ID c) s) <$> seeds) as Hflat.
    { clear. induction seeds as [|s seeds IH]; [done|]. simpl. f_equal. exact IH. }
    rewrite Hflat in *. split; [done|].
    intros p Hp. apply Hnew in Hp as [? ?]. split; [done|]. by apply Hsub.
Qed.

(** Property X14. When two jobs would be given the same log directory (a seed
    occurs twice, or an ID does while there are seeds), the preparation cannot
    succeed, since a directory is made only once: [run_experiment] raises, and
    all that has happened belongs to the preparation; the pool is not started
    and no job does anything. *)
Theorem shared_log_dir_stops_the_run {Result}
    (run : Config → Seed → Device → path → res Result)
    (configs : list Config) (seeds : list Seed) (log_path : path)
    (max_workers : option Z) (chunksize : Z) (use_gpu : bool)
    (gpu_ids : option (list Z)) (num_gpu : Z)
    (answer : bool) (sources : list string) (sched : list nat)
    (dump_error : World → path → option Exn)
    (fate : res (list Result) → Fate) (d f : gset path) :
  ¬ NoDup ((λ job : Job, leaf_dir log_path (ID job.2.1) job.2.2)
             <$> make_jobs configs seeds) →
  let r := run_experiment run configs seeds log_path max_workers chunksize
             use_gpu gpu_ids num_gpu answer sources sched dump_error fate
             (mkWorld d f []) in
  (∃ e, r.2 = Raise e)
  ∧ Forall setup_event (trace r.1).
Proof.
  intros Hdup r. set (w := mkWorld d f []) in *.
  destruct (run_experiment_cases run configs seeds log_path max_workers chunksize
              use_gpu gpu_ids num_gpu answer sources sched dump_error fate w)
    as [(e & Hp & Heq)|(Hp & _)].
  - fold r in Heq. rewrite Heq. simpl. split; [by exists e|].
    destruct (prepare_setup configs seeds log_path answer sources dump_error w)
      as [(t & Ht & Hq) _]. by rewrite Ht.
  - exfalso. apply Hdup. unfold prepare in Hp.
    apply bind_ret_inv in Hp as Hinv. destruct Hinv as ([] & _ & Heq).
    rewrite Heq in Hp.
    apply bind_ret_inv in Hp as Hinv. destruct Hinv as ([] & _ & Heq').
    rewrite Heq' in Hp. by eapply create_subfolders_distinct.
Qed.

(** ** What the preparation leaves on the disk *)

Lemma parent_snoc (p : path) (n : string) : parent (p ++ [n]) = p.
Proof.
  unfold parent. rewrite length_app. simpl.
  replace (length p + 1 - 1)%nat with (length p) by lia.
  by rewrite take_app_length.
Qed.

Lemma name_of_snoc (p : path) (n : string) : name_of (p ++ [n]) = n.
Proof. unfold name_of. by rewrite last_snoc. Qed.

Lemma add_ext_snoc (p : path) (n ext : string) :
  add_ext (p ++ [n]) ext = p ++ [n +:+ ext].
Proof. unfold add_ext. by rewrite parent_snoc, name_of_snoc. Qed.

Lemma add_ext_cons2 (p : path) (a n ext : string) :
  add_ext (p ++ [a; n]) ext = p ++ [a; n +:+ ext].
Proof.
  replace (p ++ [a; n]) with ((p ++ [a]) ++ [n]) by by rewrite <- app_assoc.
  by rewrite add_ext_snoc, <- app_assoc.
Qed.

Lemma for_each_kept {A} (F : A → World → Prop) (l : list A) (body : A → M ()) w :
  (∀ x p, respects (keeps p) (body x)) →
  (∀ x w w', (∀ p, keeps p w w') → F x w → F x w') →
  (∀ x w, (body x w).2 = Ret () → F x (body x w).1) →
  (for_each l body w).2 = Ret () →
  ∀ x, x ∈ l → F x (for_each l body w).1.
Proof.
  intros Hbody Hstable Hmade. revert w.
  induction l as [|y l IH]; intros w Hret x Hx; [by apply elem_of_nil in Hx|].
  simpl in *. apply bind_ret_inv in Hret as Hinv. destruct Hinv as ([] & Hy & Heq).
  rewrite Heq in *. apply elem_of_cons in Hx as [->|Hx].
  - eapply Hstable; [|by apply Hmade].
    intros p. apply (keeps_for_each p l body). intros z. apply Hbody.
  - by apply IH.
Qed.

Lemma kept_dir {A} (m : M A) (x : path) w :
  respects (keeps x) m → x ∈ dirs w → x ∈ dirs (m w).1.
Proof. intros Hm. by destruct (Hm w) as [[Hd _] _]. Qed.

Lemma kept_file {A} (m : M A) (x : path) w :
  respects (keeps x) m → x ∈ files w → x ∈ files (m w).1.
Proof. intros Hm. by destruct (Hm w) as [[_ Hf] _]. Qed.

Lemma keeps_copyfile x s dst : respects (keeps x) (copyfile s dst).
Proof.
  unfold copyfile. apply keeps_bind; [apply keeps_write_file|].
  intros _. apply keeps_emit.
Qed.

Lemma keeps_yaml_dump x error c f ext : respects (keeps x) (yaml_dump error c f ext).
Proof.
  unfold yaml_dump. apply keeps_bind; [apply keeps_write_file|].
  intros _. apply keeps_emit.
Qed.

Lemma keeps_pickle_dump x error cs f ext :
  respects (keeps x) (pickle_dump error cs f ext).
Proof.
  unfold pickle_dump. apply keeps_bind; [apply keeps_write_file|].
  intros _. apply keeps_emit.
Qed.

Lemma write_file_written error f w :
  (write_file error f w).2 = Ret () → f ∈ files (write_file error f w).1.
Proof.
  unfold write_file, bind, get_world. simpl.
  destruct (error w f); [done|]. simpl. set_solver.
Qed.

Lemma written_then_emit error f evs w :
  (bind (write_file error f) (λ _, emit evs) w).2 = Ret () →
  f ∈ files (bind (write_file error f) (λ _, emit evs) w).1.
Proof.
  intros Hret. apply bind_ret_inv in Hret as Hinv.
  destruct Hinv as ([] & Hw & Heq). rewrite Heq. simpl.
  by apply write_file_written.
Qed.

Lemma create_log_dir_made log_path answer w :
  (create_log_dir log_path answer w).2 = Ret () →
  log_path ∈ dirs (create_log_dir log_path answer w).1.
Proof.
  destruct (path_exists w log_path) eqn:Hex.
  - rewrite create_log_dir_existing by done. destruct answer.
    + intros Hret. apply bind_ret_inv in Hret as Hinv.
      destruct Hinv as ([] & _ & Heq). rewrite Heq in *.
      by apply mkdir_parents_made.
    + intros Hret. apply bind_ret_inv in Hret as Hinv.
      destruct Hinv as (old & _ & Heq). rewrite Heq in *.
      apply bind_ret_inv in Hret as Hinv.
      destruct Hinv as ([] & _ & Heq'). rewrite Heq' in *.
      apply bind_ret_inv in Hret as Hinv.
      destruct Hinv as ([] & Hmk & Heq''). rewrite Heq'' in *. simpl.
      by apply mkdir_parents_made.
  - rewrite create_log_dir_fresh by done. apply mkdir_parents_made.
Qed.

(** Property X15. When the preparation returns, the logging directory holds
    what the run needs: the directory [source_files] with a copy of every
    source file, the file [config.yml] under the ID of every configuration,
    and the file [configs.pkl]. *)
Theorem prepare_layout (configs : list Config) (seeds : list Seed)
    (log_path : path) (answer : bool) (sources : list string)
    (dump_error : World → path → option Exn) (w : World) :
  let r := prepare configs seeds log_path answer sources dump_error w in
  r.2 = Ret () →
  log_path ∈ dirs r.1
  ∧ log_path ++ ["source_files"] ∈ dirs r.1
  ∧ (∀ s, s ∈ sources → log_path ++ ["source_files"; s] ∈ files r.1)
  ∧ (∀ c, c ∈ configs → log_path ++ [pretty (ID c); "config.yml"] ∈ files r.1)
  ∧ log_path ++ ["configs.pkl"] ∈ files r.1.
Proof.
  intros r Hret. subst r. unfold prepare in *.
  apply bind_ret_inv in Hret as Hinv. destruct Hinv as ([] & H1 & Heq).
  rewrite Heq in *. set (w1 := (create_log_dir log_path answer w).1) in *.
  apply bind_ret_inv in Hret as Hinv. destruct Hinv as ([] & H2 & Heq').
  rewrite Heq' in *. set (w2 := (save_sources log_path sources w1).1) in *.
  set (w3 := (create_subfolders configs seeds log_path dump_error w2).1).
  assert (∀ p, keeps p w1 w2) as K12.
  { intros p. apply keeps_save_sources. }
  assert (∀ p, keeps p w2 w3) as K23.
  { intros p. apply keeps_create_subfolders. }
  assert (log_path ∈ dirs w1) as Hroot by by apply create_log_dir_made.
  split_and!.
  - by apply K23, K12.
  - apply K23. subst w2. unfold save_sources in *.
    apply bind_ret_inv in H2 as Hinv. destruct Hinv as ([] & Hmk & Heq2).
    rewrite Heq2. apply kept_dir; [|by apply mkdir_parents_new].
    apply keeps_for_each. intros s. apply keeps_copyfile.
  - intros s Hs. apply K23. subst w2. unfold save_sources in *.
    apply bind_ret_inv in H2 as Hinv. destruct Hinv as ([] & Hmk & Heq2).
    rewrite Heq2 in *.
    apply (for_each_kept (λ s w, log_path ++ ["source_files"; s] ∈ files w)
             sources _ _); [| | |done|done].
    + intros s' p. apply keeps_copyfile.
    + intros s' wa wb Hk. apply Hk.
    + intros s' wa Hc. unfold copyfile in *.
      apply written_then_emit in Hc.
      by replace (log_path ++ ["source_files"; s'])
        with ((log_path ++ ["source_files"]) ++ [s']) by by rewrite <- app_assoc.
  - intros c Hc. subst w3. unfold create_subfolders in *.
    apply bind_ret_inv in Hret as Hinv. destruct Hinv as ([] & Hloop & Heq3).
    rewrite Heq3. apply kept_file; [apply keeps_pickle_dump|].
    apply (for_each_kept
             (λ c w, log_path ++ [pretty (ID c); "config.yml"] ∈ files w)
             configs _ _); [| | |done|done].
    + intros c' p. apply keeps_bind.
      * apply keeps_for_each. intros s. apply keeps_mkdir_parents.
      * intros _. apply keeps_yaml_dump.
    + intros c' wa wb Hk. apply Hk.
    + intros c' wa Hc'. apply bind_ret_inv in Hc' as Hinv.
      destruct Hinv as ([] & _ & Heq4). rewrite Heq4 in *.
      unfold yaml_dump in *. apply written_then_emit in Hc'.
      by rewrite <- (add_ext_cons2 log_path (pretty (ID c')) "config" ".yml").
  - subst w3. unfold create_subfolders in *.
    apply bind_ret_inv in Hret as Hinv. destruct Hinv as ([] & Hloop & Heq3).
    rewrite Heq3 in *. unfold pickle_dump in *.
    apply written_then_emit in Hret.
    by replace (log_path ++ ["configs.pkl"])
      with (add_ext (log_path ++ ["configs"]) ".pkl") by apply add_ext_snoc.
Qed.

(** ** The three ways to the logging directory *)

Lemma ancestors_prefix (q p : path) : q ∈ ancestors p → q `prefix_of` p.
Proof.
  revert q. induction p as [|x p IH]; intros q Hq; simpl in Hq.
  { by apply elem_of_nil in Hq. }
  apply elem_of_cons in Hq as [->|Hq].
  - apply (prefix_cons x []), prefix_nil.
  - apply list_elem_of_fmap in Hq as (q' & -> & Hq'). by apply prefix_cons, IH.
Qed.

Lemma prefix_ancestors (q p : path) : q ≠ [] → q `prefix_of` p → q ∈ ancestors p.
Proof.
  revert q. induction p as [|x p IH]; intros q Hne Hpre.
  { by apply prefix_nil_inv in Hpre. }
  destruct q as [|y q]; [done|].
  pose proof (prefix_cons_inv_1 _ _ _ _ Hpre) as ->.
  apply prefix_cons_inv_2 in Hpre. simpl.
  destruct q as [|z q]; [left|]. right.
  apply list_elem_of_fmap. exists (z :: q). split; [done|]. by apply IH.
Qed.

Lemma parent_name (p : path) : p ≠ [] → p = parent p ++ [name_of p].
Proof.
  intros Hne. destruct (decide (p = [])) as [|_]; [done|].
  induction p as [|x p _] using rev_ind; [done|].
  by rewrite parent_snoc, name_of_snoc.
Qed.

Lemma old_name_differs (s : string) : "old_" +:+ s ≠ s.
Proof.
  intros Heq. apply (f_equal String.length) in Heq.
  cbv [String.append] in Heq. simpl in Heq. lia.
Qed.

Lemma backup_apart (log_path x : path) :
  log_path ≠ [] →
  backup_path log_path `prefix_of` x → ¬ log_path `prefix_of` x.
Proof.
  intros Hne [k ->] Hpre. unfold backup_path in Hpre.
  rewrite (parent_name log_path Hne) in Hpre at 1.
  rewrite <- !app_assoc in Hpre. apply prefix_app_inv in Hpre. simpl in Hpre.
  apply prefix_cons_inv_1 in Hpre. symmetry in Hpre.
  by apply old_name_differs in Hpre.
Qed.

Lemma with_name_backup (log_path : path) :
  log_path ≠ [] →
  with_name log_path ("old_" +:+ name_of log_path) = Ok (backup_path log_path).
Proof. by destruct log_path. Qed.

Lemma create_log_dir_backup (log_path : path) w :
  path_exists w log_path = true → log_path ≠ [] →
  create_log_dir log_path false w
  = bind (rename log_path (backup_path log_path))
      (λ _, bind (mkdir_parents log_path)
         (λ _, emit [PrintRenamed (backup_path log_path); Input]))
      (after w [AskYesNo log_path]).
Proof.
  intros Hex Hne. rewrite create_log_dir_existing by done.
  by rewrite with_name_backup.
Qed.

(** Property X16. A backup that cannot be made: the logging directory exists,
    the operator declines to clean it, and [old_<name>] next to it is a
    directory that holds something. The renaming then fails with OSError right
    after the question; nothing on the disk has changed and nothing else
    happens. *)
Theorem backup_refused {Result}
    (run : Config → Seed → Device → path → res Result)
    (configs : list Config) (seeds : list Seed) (log_path : path)
    (max_workers : option Z) (chunksize : Z) (use_gpu : bool)
    (gpu_ids : option (list Z)) (num_gpu : Z)
    (sources : list string) (sched : list nat)
    (dump_error : World → path → option Exn)
    (fate : res (list Result) → Fate) (w : World) (x : path) :
  log_path ≠ [] →
  log_path ∈ dirs w →
  backup_path log_path ∉ files w →
  x ∈ dirs w ∪ files w →
  backup_path log_path `prefix_of` x →
  x ≠ backup_path log_path →
  run_experiment run configs seeds log_path max_workers chunksize use_gpu
                 gpu_ids num_gpu false sources sched dump_error fate w
  = (after w [AskYesNo log_path], Raise OSError).
Proof.
  intros Hne Hdir Hfile Hx Hpre Hxq.
  assert (path_exists w log_path = true) as Hex.
  { unfold path_exists. apply bool_decide_eq_true. auto. }
  unfold run_experiment, prepare. unfold bind at 1 2.
  rewrite create_log_dir_existing by done.
  rewrite with_name_backup by done. unfold bind at 1. simpl.
  unfold bind at 1. unfold rename. unfold bind at 1, get_world. simpl.
  unfold is_dir. simpl. rewrite bool_decide_eq_true_2 by auto.
  rewrite bool_decide_eq_false_2 by done.
  rewrite bool_decide_eq_true_2; [done|].
  exists x. by split.
Qed.

Lemma mkdir_parents_empty (p : path) w :
  (∀ x, x ∈ dirs w ∪ files w → ¬ p `prefix_of` x) →
  (mkdir_parents p w).2 = Ret () →
  ∀ x, x ∈ dirs (mkdir_parents p w).1 ∪ files (mkdir_parents p w).1 →
       p `prefix_of` x → x = p.
Proof.
  intros Hnone. unfold mkdir_parents, bind, get_world. simpl.
  destruct (path_exists w p); [done|]. case_bool_decide; [done|]. simpl.
  intros _ x Hx Hpre.
  apply elem_of_union in Hx as [[Hx|Hx]%elem_of_union|Hx].
  - destruct (Hnone x); [set_solver|done].
  - apply elem_of_list_to_set, ancestors_prefix in Hx. by apply (anti_symm prefix).
  - destruct (Hnone x); [set_solver|done].
Qed.

Lemma moved_apart (p x : path) (s : gset path) :
  p ≠ [] → x ∈ moved p (backup_path p) s → ¬ p `prefix_of` x.
Proof.
  intros Hne. unfold moved.
  intros [Hx|Hx]%elem_of_union.
  - apply elem_of_map in Hx as (y & -> & _).
    apply backup_apart; [done|]. by apply prefix_app_r.
  - by apply elem_of_filter in Hx as [[? _] _].
Qed.

(** Property X17. Whichever way is taken (the directory is new, it is cleaned,
    or it is backed up), when lines 69-83 are through the logging directory
    exists and is empty. The file system is one in which parents of existing
    paths exist. *)
Theorem log_dir_starts_empty (log_path : path) (answer : bool) (w : World) :
  closed w →
  let r := create_log_dir log_path answer w in
  r.2 = Ret () →
  log_path ∈ dirs r.1
  ∧ ∀ x, x ∈ dirs r.1 ∪ files r.1 → log_path `prefix_of` x → x = log_path.
Proof.
  intros Hclosed r Hret. split; [by apply create_log_dir_made|].
  subst r. revert Hret.
  destruct (path_exists w log_path) eqn:Hex.
  - set (w1 := after w [AskYesNo log_path]). destruct answer.
    + rewrite create_log_dir_existing by done. fold w1.
      intros Hret. apply bind_ret_inv in Hret as Hinv.
      destruct Hinv as ([] & Hrm & Heq). rewrite Heq in *.
      apply mkdir_parents_empty; [|done].
      revert Hrm. unfold rmtree, bind, get_world. simpl.
      destruct (is_dir w1 log_path); [|done]. simpl. intros _ x Hx.
      apply elem_of_union in Hx as [Hx|Hx];
        by apply elem_of_filter in Hx as [? _].
    + destruct (decide (log_path = [])) as [->|Hne].
      { by rewrite create_log_dir_existing. }
      rewrite create_log_dir_backup by done. fold w1.
      intros Hret. apply bind_ret_inv in Hret as Hinv.
      destruct Hinv as ([] & Hrn & Heq). rewrite Heq in *.
      apply bind_ret_inv in Hret as Hinv.
      destruct Hinv as ([] & Hmk & Heq'). rewrite Heq' in *. simpl.
      apply mkdir_parents_empty; [|done].
      revert Hrn. unfold rename, bind, get_world. simpl.
      destruct (is_dir w1 log_path) eqn:Hdir.
      * case_bool_decide; [done|]. case_bool_decide; [done|]. simpl.
        intros _ x Hx. apply elem_of_union in Hx as [Hx|Hx];
          by eapply moved_apart.
      * destruct (is_dir w1 (backup_path log_path)); [done|]. simpl.
        intros _ x Hx Hpre. apply elem_of_union in Hx as [Hx|Hx];
          [|by eapply moved_apart].
        unfold is_dir in Hdir. simpl in Hdir.
        rewrite bool_decide_eq_false in Hdir. apply Hdir. right.
        destruct (decide (x = log_path)) as [->|Hxp]; [done|].
        apply (Hclosed x log_path); [set_solver| |done].
        by apply prefix_ancestors.
  - rewrite create_log_dir_fresh by done. intros Hret.
    apply mkdir_parents_empty; [|done]. intros x Hx Hpre.
    unfold path_exists in Hex. rewrite bool_decide_eq_false in Hex.
    apply Hex. right.
    destruct (decide (x = log_path)) as [->|Hxp]; [set_solver|]. left.
    apply (Hclosed x log_path); [done| |done].
    apply prefix_ancestors; [|done]. intros ->. apply Hex. by left.
Qed.

Lemma rename_dir_ok (p q : path) w :
  is_dir w p = true → (rename p q w).2 = Ret () →
  rename p q w
  = (mkWorld (moved p q (dirs w)) (moved p q (files w)) (trace w ++ [Rename p q]),
     Ret ()).
Proof.
  intros Hdir. unfold rename, bind, get_world. simpl. rewrite Hdir.
  case_bool_decide; [done|]. by case_bool_decide.
Qed.

Lemma mkdir_parents_ok (p : path) w :
  (mkdir_parents p w).2 = Ret () →
  mkdir_parents p w
  = (mkWorld (dirs w ∪ list_to_set (ancestors p)) (files w) (trace w ++ [Mkdir p]),
     Ret ()).
Proof.
  unfold mkdir_parents, bind, get_world. simpl.
  destruct (path_exists w p); [done|]. by case_bool_decide.
Qed.

(** Property X18. The backup loses nothing: when the operator declines to
    clean an existing logging directory and lines 78-83 are through,
    everything that was in or under it is found at the same place under
    [old_<name>], and what has happened is the question, the renaming, the
    making of the new directory, the message and the pause, in this order. *)
Theorem backup_moves_everything (log_path : path) (w : World) :
  log_path ∈ dirs w →
  let r := create_log_dir log_path false w in
  r.2 = Ret () →
  trace r.1
  = trace w ++ [AskYesNo log_path; Rename log_path (backup_path log_path);
                Mkdir log_path; PrintRenamed (backup_path log_path); Input]
  ∧ ∀ x, log_path `prefix_of` x →
      (x ∈ dirs w → backup_path log_path ++ drop (length log_path) x ∈ dirs r.1)
      ∧ (x ∈ files w →
         backup_path log_path ++ drop (length log_path) x ∈ files r.1).
Proof.
  intros Hdir r Hret. subst r.
  assert (path_exists w log_path = true) as Hex.
  { unfold path_exists. apply bool_decide_eq_true. auto. }
  destruct (decide (log_path = [])) as [->|Hne].
  { by rewrite create_log_dir_existing in Hret. }
  rewrite create_log_dir_backup in * by done.
  set (w1 := after w [AskYesNo log_path]) in *.
  assert (is_dir w1 log_path = true) as Hd1.
  { unfold is_dir. apply bool_decide_eq_true. auto. }
  apply bind_ret_inv in Hret as Hinv.
  destruct Hinv as ([] & Hrn & Heq). rewrite Heq in *.
  apply bind_ret_inv in Hret as Hinv.
  destruct Hinv as ([] & Hmk & Heq'). rewrite Heq' in *.
  rewrite (mkdir_parents_ok _ _ Hmk).
  rewrite (rename_dir_ok _ _ _ Hd1 Hrn). simpl. split.
  - by rewrite <- !app_assoc.
  - intros x Hpre. split; intros Hx.
    + apply elem_of_union. left. unfold moved. apply elem_of_union. left.
      apply elem_of_map. exists x. split; [done|]. by apply elem_of_filter.
    + unfold moved. apply elem_of_union. left.
      apply elem_of_map. exists x. split; [done|]. by apply elem_of_filter.
Qed.

(** Property X19. The logging path names a regular file and the operator
    agrees to clean it: [rmtree] refuses what is not a directory, so the run
    raises NotADirectoryError right after the question and nothing has
    changed. *)
Theorem clean_of_a_file_fails {Result}
    (run : Config → Seed → Device → path → res Result)
    (configs : list Config) (seeds : list Seed) (log_path : path)
    (max_workers : option Z) (chunksize : Z) (use_gpu : bool)
    (gpu_ids : option (list Z)) (num_gpu : Z)
    (sources : list string) (sched : list nat)
    (dump_error : World → path → option Exn)
    (fate : res (list Result) → Fate) (w : World) :
  log_path ∈ files w →
  log_path ∉ dirs w →
  log_path ≠ [] →
  run_experiment run configs seeds log_path max_workers chunksize use_gpu
                 gpu_ids num_gpu true sources sched dump_error fate w
  = (after w [AskYesNo log_path], Raise NotADirectoryError).
Proof.
  intros Hfile Hdir Hne.
  assert (path_exists w log_path = true) as Hex.
  { unfold path_exists. apply bool_decide_eq_true. auto. }
  unfold run_experiment, prepare. unfold bind at 1 2.
  rewrite create_log_dir_existing by done.
  unfold bind at 1. unfold rmtree, bind at 1, get_world. simpl.
  unfold is_dir. simpl. rewrite bool_decide_eq_false_2; [done|].
  by intros [?|?].
Qed.

(** ** The policy of the example *)

Lemma call_has_key {Tensor Dist : Type}
    (feature_network : Tensor → Tensor) (action_head : Tensor → Dist)
    (V_head : Tensor → Tensor) (sample : Dist → Tensor)
    (log_prob : Dist → Tensor → Tensor) (entropy perplexity : Dist → Tensor)
    (x : Tensor) (out_keys : list string) (k : string) :
  k ∈ dom (__call__ feature_network action_head V_head sample log_prob entropy
                    perplexity x out_keys)
  ↔ k = "action" ∨ k = "V"
    ∨ (k ∈ out_keys
       ∧ (k = "action_logprob" ∨ k = "entropy" ∨ k = "perplexity")).
Proof.
  unfold __call__.
  repeat case_bool_decide; rewrite ?dom_insert_L, dom_empty_L;
    rewrite ?elem_of_union, ?elem_of_singleton;
    split; intros Hk; destruct_or?; destruct_and?; subst; try done;
    repeat destruct_or?; subst; try tauto; set_solver.
Qed.

(** Property X20. The keys of what [Policy.__call__] returns: [action] and [V]
    always, whether asked for or not, and of the keys asked for only
    [action_logprob], [entropy] and [perplexity]; any other requested key is
    ignored. *)
Theorem policy_out_keys {Tensor Dist : Type}
    (feature_network : Tensor → Tensor) (action_head : Tensor → Dist)
    (V_head : Tensor → Tensor) (sample : Dist → Tensor)
    (log_prob : Dist → Tensor → Tensor) (entropy perplexity : Dist → Tensor)
    (x : Tensor) (out_keys : list string) :
  dom (__call__ feature_network action_head V_head sample log_prob entropy
                perplexity x out_keys)
  = ({[ "action"; "V" ]} : gset string)
    ∪ (list_to_set out_keys ∩ {[ "action_logprob"; "entropy"; "perplexity" ]}).
Proof.
  apply set_eq. intros k. rewrite call_has_key.
  rewrite elem_of_union, elem_of_intersection, elem_of_list_to_set.
  rewrite !elem_of_union, !elem_of_singleton. tauto.
Qed.

Lemma call_action {Tensor Dist : Type}
    (feature_network : Tensor → Tensor) (action_head : Tensor → Dist)
    (V_head : Tensor → Tensor) (sample : Dist → Tensor)
    (log_prob : Dist → Tensor → Tensor) (entropy perplexity : Dist → Tensor)
    (x : Tensor) (out_keys : list string) :
  __call__ feature_network action_head V_head sample log_prob entropy
           perplexity x out_keys !! "action"
  = Some (sample (action_head (feature_network x))).
Proof.
  unfold __call__. repeat case_bool_decide;
    repeat (rewrite lookup_insert_ne by done); by rewrite lookup_insert_eq.
Qed.

Lemma call_action_logprob {Tensor Dist : Type}
    (feature_network : Tensor → Tensor) (action_head : Tensor → Dist)
    (V_head : Tensor → Tensor) (sample : Dist → Tensor)
    (log_prob : Dist → Tensor → Tensor) (entropy perplexity : Dist → Tensor)
    (x : Tensor) (out_keys : list string) :
  "action_logprob" ∈ out_keys →
  __call__ feature_network action_head V_head sample log_prob entropy
           perplexity x out_keys !! "action_logprob"
  = Some (log_prob (action_head (feature_network x))
                   (sample (action_head (feature_network x)))).
Proof.
  intros Hin. unfold __call__. rewrite (bool_decide_eq_true_2 _ Hin).
  repeat case_bool_decide;
    repeat (rewrite lookup_insert_ne by done); by rewrite lookup_insert_eq.
Qed.

(** Property X21. [Agent.choose_action] never fails on a missing key. When the
    sampled action holds a NaN it never returns; otherwise it returns a
    dictionary with exactly the keys [action], [action_logprob], [V] and
    [entropy], in which the action is the sampled one, constrained in the
    continuous case, while the log-probability is that of the sampled action
    as it was drawn. *)
Theorem choose_action_outcome {Obs Tensor Dist : Type}
    (feature_network : Tensor → Tensor) (action_head : Tensor → Dist)
    (V_head : Tensor → Tensor) (sample : Dist → Tensor)
    (log_prob : Dist → Tensor → Tensor) (entropy perplexity : Dist → Tensor)
    (to_tensor : Obs → Tensor) (any_isnan : Tensor → bool) (continuous : bool)
    (constraint_action : Tensor → Tensor) (obs : Obs) :
  let dist := action_head (feature_network (to_tensor obs)) in
  let a := sample dist in
  let r := choose_action feature_network action_head V_head sample log_prob
             entropy perplexity to_tensor any_isnan continuous
             constraint_action obs in
  (∀ e, r ≠ Raise e)
  ∧ (r = Blocked ↔ any_isnan a = true)
  ∧ (any_isnan a = false →
     ∃ out, r = Ret out
       ∧ dom out = ({[ "action"; "action_logprob"; "V"; "entropy" ]} : gset string)
       ∧ out !! "action" = Some (if continuous then constraint_action a else a)
       ∧ out !! "action_logprob" = Some (log_prob dist a)).
Proof.
  intros dist a r. subst r. unfold choose_action, py_getitem.
  rewrite call_action. fold dist. fold a.
  destruct (any_isnan a) eqn:Hnan.
  { split_and!; [done|done|done]. }
  split_and!.
  - by destruct continuous.
  - by destruct continuous.
  - intros _. destruct continuous; eexists; (split; [done|]).
    + split_and!.
      * apply set_eq. intros k. rewrite dom_insert_L, elem_of_union, call_has_key.
        rewrite !elem_of_union, !elem_of_singleton.
        split; [intros [->|[->|[->|[Hin Hk]]]]|intros [[[->| ->]| ->]| ->]];
          try tauto.
        -- set_solver.
        -- right. right. right. split; [set_solver|tauto].
        -- right. right. right. split; [set_solver|tauto].
      * by rewrite lookup_insert_eq.
      * rewrite lookup_insert_ne by done. apply call_action_logprob.
        set_solver.
    + split_and!.
      * apply set_eq. intros k. rewrite call_has_key.
        rewrite !elem_of_union, !elem_of_singleton.
        split; [intros [->|[->|[Hin Hk]]]|intros [[[->| ->]| ->]| ->]];
          try tauto.
        -- set_solver.
        -- right. right. split; [set_solver|tauto].
        -- right. right. split; [set_solver|tauto].
      * apply call_action.
      * apply call_action_logprob. set_solver.
Qed.

(** ** The further properties at concrete inputs *)

Lemma device_for_outcomes_witness :
  ∃ i, cuda 3 = cuda i ∧ 0 ≤ i < 4.
Proof.
  destruct (device_for_outcomes (Some [2; 3]) 4 3) as (_ & _ & _ & H); [lia|].
  exact (H (cuda 3) eq_refl).
Defined.

Lemma round_robin_balanced_witness : Z.of_nat (load None 4 6 1) = 2.
Proof.
  destruct (round_robin_balanced 4 1 6) as (H & _ & _); [lia|].
  apply H. lia.
Defined.

Lemma round_robin_subset_balanced_witness :
  Z.of_nat (load (Some [2; 3]) 4 5 3) = 2.
Proof.
  destruct (round_robin_subset_balanced [2; 3] 4 3 5 1) as (H & _).
  - repeat (constructor; [lia|]). constructor.
  - apply NoDup_cons. split; [|apply NoDup_singleton].
    intros Hin. apply list_elem_of_singleton in Hin. discriminate Hin.
  - apply H. reflexivity.
Defined.

Lemma job_log_dirs_distinct_witness :
  NoDup ((λ job : Job, leaf_dir ["logs"] (ID job.2.1) job.2.2)
           <$> make_jobs [cfg0; cfg1] [1; 2]).
Proof.
  apply job_log_dirs_distinct.
  - apply NoDup_cons. split; [|apply NoDup_singleton].
    intros Hin. apply list_elem_of_singleton in Hin. discriminate Hin.
  - apply NoDup_cons. split; [|apply NoDup_singleton].
    intros Hin. apply list_elem_of_singleton in Hin. discriminate Hin.
Defined.

Lemma results_by_index_witness :
  ∃ d x, [10 * 0 + 1; 10 * 0 + 3; 10 * 1 + 1; 10 * 1 + 3] !! 3%nat = Some x
       ∧ (device_for false None 0 (Z.of_nat 3)).2 = Ok d
       ∧ sample_run cfg1 3 d (leaf_dir ["logs"] (ID cfg1) 3) = Ok x.
Proof.
  apply (proj2 (results_by_index sample_run [cfg0; cfg1] [1; 3] ["logs"] (Some 2)
                  1 false None 0 true ["a.py"] [1; 0; 1; 1; 0]%nat open_error plain
                  fresh [1; 3; 11; 13] ltac:(vm_compute; reflexivity))
           1%nat 1%nat cfg1 3 eq_refl eq_refl).
Defined.


Lemma pool_arguments_refused_witness :
  dispatch (_run sample_run ["logs"] false None 0) plain (Some 2) 0 []
           (make_jobs [cfg0] [1; 3]) fresh
  = (after fresh [PoolStart 2], Raise ValueError).
Proof.
  apply (pool_arguments_refused (_run sample_run ["logs"] false None 0) plain
           (make_jobs [cfg0] [1; 3]) 2 0 [] fresh).
  right. right. lia.
Defined.


Lemma pooled_runs_each_job_once_witness :
  let fn := _run sample_run ["logs"] false None 0 in
  let jobs := make_jobs [cfg0; cfg1] [1; 3] in
  ∃ t, (dispatch fn plain (Some 2) 1 [1; 0; 1]%nat jobs fresh).1
       = after fresh (PoolStart 2 :: t)
     ∧ t ≡ₚ (map_jobs fn jobs).1.
Proof.
  apply (pooled_runs_each_job_once (_run sample_run ["logs"] false None 0) plain
           2 1
           [1; 0; 1]%nat (make_jobs [cfg0; cfg1] [1; 3]) fresh [1; 3; 11; 13]).
  vm_compute. reflexivity.
Defined.

Lemma finished_message_iff_returns_witness :
  let r := run_experiment sample_run [cfg0] [1; 3] ["logs"] None 1 false None 0
             true [] [] open_error plain fresh in
  ∃ t, trace r.1 = t ++ [PrintFinished ["logs"]] ∧ ∀ p, PrintFinished p ∉ t.
Proof.
  apply (proj2 (finished_message_iff_returns sample_run [cfg0] [1; 3] ["logs"]
                  None 1 false None 0 true [] [] open_error plain ∅ ∅) [1; 3]).
  vm_compute. reflexivity.
Defined.

Lemma operator_asked_iff_exists_witness :
  ∃ t, trace (run_experiment sample_run [cfg0] [1; 3] ["logs"] None 1 false None 0
                true [] [] open_error plain (mkWorld (dirs first_run) (files first_run) [])).1
       = AskYesNo ["logs"] :: t.
Proof.
  apply (proj2 (operator_asked_iff_exists sample_run [cfg0] [1; 3] ["logs"]
                  None 1 false None 0 true [] [] open_error plain
                  (dirs first_run) (files first_run))).
  vm_compute. reflexivity.
Defined.

Lemma prepare_keeps_outside_witness :
  keeps ["data"] first_run
    (prepare [cfg0] [1; 3] ["logs"] true [] open_error first_run).1.
Proof.
  apply prepare_keeps_outside.
  - intros [k Hk]. discriminate Hk.
  - intros [k Hk]. vm_compute in Hk. discriminate Hk.
Defined.

Lemma shared_log_dir_stops_the_run_witness :
  let r := run_experiment sample_run [cfg0] [1; 1] ["logs"] None 1 false None 0
             true [] [] open_error plain fresh in
  (∃ e, r.2 = Raise e) ∧ Forall setup_event (trace r.1).
Proof.
  apply (shared_log_dir_stops_the_run sample_run [cfg0] [1; 1] ["logs"] None 1
           false None 0 true [] [] open_error plain ∅ ∅).
  intros Hnd. vm_compute in Hnd. apply NoDup_cons in Hnd as [Hnd _].
  apply Hnd. apply list_elem_of_here.
Defined.

Lemma prepare_layout_witness :
  let r := prepare [cfg0; cfg1] [1; 3] ["logs"] true ["a.py"] open_error fresh in
  ["logs"] ∈ dirs r.1
  ∧ ["logs"] ++ ["source_files"] ∈ dirs r.1
  ∧ (∀ s, s ∈ ["a.py"] → ["logs"] ++ ["source_files"; s] ∈ files r.1)
  ∧ (∀ c, c ∈ [cfg0; cfg1] → ["logs"] ++ [pretty (ID c); "config.yml"] ∈ files r.1)
  ∧ ["logs"] ++ ["configs.pkl"] ∈ files r.1.
Proof.
  apply (prepare_layout [cfg0; cfg1] [1; 3] ["logs"] true ["a.py"] open_error fresh).
  vm_compute. reflexivity.
Defined.

Lemma backup_refused_witness :
  run_experiment sample_run [cfg0] [1; 3] ["logs"] None 1 false None 0
                 false [] [] open_error plain earlier_run
  = (after earlier_run [AskYesNo ["logs"]], Raise OSError).
Proof.
  apply (backup_refused sample_run [cfg0] [1; 3] ["logs"] None 1 false None 0
           [] [] open_error plain earlier_run ["old_logs"; "0"]).
  - discriminate.
  - apply (bool_decide_unpack (["logs"] ∈ dirs earlier_run)). vm_compute. exact I.
  - apply (bool_decide_unpack (backup_path ["logs"] ∉ files earlier_run)).
    vm_compute. exact I.
  - apply (bool_decide_unpack
             (["old_logs"; "0"] ∈ dirs earlier_run ∪ files earlier_run)).
    vm_compute. exact I.
  - exists ["0"]. reflexivity.
  - intros Heq. vm_compute in Heq. discriminate Heq.
Defined.

Lemma log_dir_starts_empty_witness :
  let r := create_log_dir ["logs"] true fresh in
  ["logs"] ∈ dirs r.1
  ∧ ∀ x, x ∈ dirs r.1 ∪ files r.1 → ["logs"] `prefix_of` x → x = ["logs"].
Proof.
  apply (log_dir_starts_empty ["logs"] true fresh).
  - intros x q Hx. apply elem_of_union in Hx as [Hx|Hx];
      by apply elem_of_empty in Hx.
  - reflexivity.
Defined.

Lemma backup_moves_everything_witness :
  let r := create_log_dir ["logs"] false first_run in
  trace r.1
  = trace first_run
      ++ [AskYesNo ["logs"]; Rename ["logs"] (backup_path ["logs"]);
          Mkdir ["logs"]; PrintRenamed (backup_path ["logs"]); Input]
  ∧ ∀ x, ["logs"] `prefix_of` x →
      (x ∈ dirs first_run →
       backup_path ["logs"] ++ drop (length ["logs"]) x ∈ dirs r.1)
      ∧ (x ∈ files first_run →
         backup_path ["logs"] ++ drop (length ["logs"]) x ∈ files r.1).
Proof.
  apply (backup_moves_everything ["logs"] first_run).
  - apply (bool_decide_unpack (["logs"] ∈ dirs first_run)). vm_compute. exact I.
  - vm_compute. reflexivity.
Defined.

Lemma clean_of_a_file_fails_witness :
  run_experiment sample_run [cfg0] [1; 3] ["logs"] None 1 false None 0
                 true [] [] open_error plain file_in_the_way
  = (after file_in_the_way [AskYesNo ["logs"]], Raise NotADirectoryError).
Proof.
  apply (clean_of_a_file_fails sample_run [cfg0] [1; 3] ["logs"] None 1 false
           None 0 [] [] open_error plain file_in_the_way).
  - apply (bool_decide_unpack (["logs"] ∈ files file_in_the_way)).
    vm_compute. exact I.
  - apply (bool_decide_unpack (["logs"] ∉ dirs file_in_the_way)).
    vm_compute. exact I.
  - discriminate.
Defined.

Lemma choose_action_outcome_witness :
  ∃ out : gmap string Z,
    choose_action (λ x, x + 1) (λ f, f * 2) (λ f, f - 1) (λ d, d + 3)
                  (λ d a, d - a) (λ d, d) (λ d, 2 * d)
                  (λ obs : Z, obs) (λ _, false) true (λ a, Z.min a 5) 1
    = Ret out
    ∧ dom out = ({[ "action"; "action_logprob"; "V"; "entropy" ]} : gset string)
    ∧ out !! "action" = Some 5
    ∧ out !! "action_logprob" = Some (-3).
Proof.
  apply (proj2 (proj2 (choose_action_outcome
                         (λ x, x + 1) (λ f, f * 2) (λ f, f - 1) (λ d, d + 3)
                         (λ d a, d - a) (λ d, d) (λ d, 2 * d)
                         (λ obs : Z, obs) (λ _, false) true (λ a, Z.min a 5) 1))).
  reflexivity.
Defined.
